(** * vmware-openapi-generator: [lib/utils.py]

    A shallow embedding of the parameter-classification and path-object
    helpers of [lib/utils.py], and the properties of them that the
    specification states.

    Conventions of the embedding.
    - A Python [str] is a [string]; its characters are 8-bit, and
      [str.lower] acts on the letters [A]-[Z].  [str.upper] is embedded for
      ASCII strings, and the statements about it are about such strings.
    - A Python [int] is a [Z]; [str.find] returns [-1] on failure, as in
      Python.
    - A Python [dict] is a [gmap]; a [set] is a [gset]; a [list] is a [list].
    - A raised exception is a value of [exn]; code that can raise returns
      [result A].  Diagnostics written by [eprint] and [print] are collected
      in a log, in the order they are written. *)

From Stdlib Require Import ZArith Ascii String Lia.
From stdpp Require Import base gmap list strings.

#[local] Set Warnings "-register-all".
#[local] Open Scope Z_scope.

(** ** Exceptions *)

Inductive exn := KeyError | ValueError | TypeError | AttributeError.

Inductive result (A : Type) :=
  | Ok (a : A)
  | Raise (e : exn).
Arguments Ok {A} a.
Arguments Raise {A} e.

Definition bind {A B} (m : result A) (k : A → result B) : result B :=
  match m with
  | Ok a => k a
  | Raise e => Raise e
  end.

Notation "x ←! m ; k" := (bind m (λ x, k))
  (at level 20, m at level 100, k at level 200, only parsing).
Notation "' p ←! m ; k" := (bind m (λ p, k))
  (at level 20, p pattern, m at level 100, k at level 200, only parsing).

(** ** The string methods the module uses *)

Module PyStr.

Definition newline : ascii := "010"%char.

(** [c.lower()] for one character. *)
Definition lower_char (c : ascii) : ascii :=
  let n := nat_of_ascii c in
  if ((65 <=? n) && (n <=? 90))%nat then ascii_of_nat (n + 32) else c.

(** [s.lower()] *)
Fixpoint lower (s : string) : string :=
  match s with
  | EmptyString => EmptyString
  | String c s' => String (lower_char c) (lower s')
  end.

(** [s.startswith(pre)] *)
Fixpoint startswith (s pre : string) : bool :=
  match pre with
  | EmptyString => true
  | String c pre' =>
      match s with
      | EmptyString => false
      | String d s' => if decide (c = d) then startswith s' pre' else false
      end
  end.

(** [s.find(sub)]: the lowest index at which [sub] occurs, or [-1]. *)
Fixpoint find (s sub : string) : Z :=
  if startswith s sub then 0
  else match s with
       | EmptyString => -1
       | String _ s' => let r := find s' sub in if r =? -1 then -1 else r + 1
       end.

(** [s[n:]] for [n >= 0] *)
Fixpoint slice_from (n : nat) (s : string) : string :=
  match n, s with
  | O, _ => s
  | S _, EmptyString => EmptyString
  | S n', String _ s' => slice_from n' s'
  end.

(** [len(s)] *)
Definition len (s : string) : Z := Z.of_nat (String.length s).

(** [s.replace(old, new)] for a non-empty [old]: the occurrences of [old]
    are found from the left and do not overlap.  [skip] counts the
    characters of a replaced occurrence that are still to be passed. *)
Fixpoint replace_go (old new : string) (skip : nat) (s : string) : string :=
  match s with
  | EmptyString => EmptyString
  | String c s' =>
      match skip with
      | S k => replace_go old new k s'
      | O =>
          if startswith s old
          then new +:+ replace_go old new (String.length old - 1) s'
          else String c (replace_go old new 0 s')
      end
  end.

(** For an empty [old], Python puts [new] before every character and at
    the end. *)
Fixpoint intersperse (new s : string) : string :=
  match s with
  | EmptyString => new
  | String c s' => new +:+ String c (intersperse new s')
  end.

Definition replace (s old new : string) : string :=
  match old with
  | EmptyString => intersperse new s
  | String _ _ => replace_go old new 0 s
  end.

(** [s.split(sep)] for a separator of one character *)
Fixpoint split (sep : ascii) (s : string) : list string :=
  match s with
  | EmptyString => [EmptyString]
  | String c s' =>
      if decide (c = sep) then EmptyString :: split sep s'
      else match split sep s' with
           | w :: ws => String c w :: ws
           | [] => [String c EmptyString]
           end
  end.

(** [sep.join(ws)] *)
Fixpoint join (sep : string) (ws : list string) : string :=
  match ws with
  | [] => EmptyString
  | [w] => w
  | w :: ws' => w +:+ sep +:+ join sep ws'
  end.

(** [c in s] for a character [c] *)
Fixpoint has_char (c : ascii) (s : string) : bool :=
  match s with
  | EmptyString => false
  | String d s' => if decide (c = d) then true else has_char c s'
  end.

End PyStr.

(** ** JSON-like values held by a path object *)

Inductive json :=
  | JNull
  | JBool (b : bool)
  | JInt (z : Z)
  | JStr (s : string)
  | JList (l : list json)
  | JObj (d : gmap string json).

(** ** TypeMapper *)

Definition metamodel_to_swagger_type_converter (input_type : string)
  : string * option string :=
  let input_type := PyStr.lower input_type in
  if decide (input_type = "date_time") then ("string", Some "date-time")
  else if decide (input_type = "secret") then ("string", Some "password")
  else if decide (input_type = "any_error") then ("string", None)
  else if decide (input_type = "opaque") then ("object", None)
  else if decide (input_type = "dynamic_structure") then ("object", None)
  else if decide (input_type = "uri") then ("string", Some "uri")
  else if decide (input_type = "id") then ("string", None)
  else if decide (input_type = "long") then ("integer", Some "int64")
  else if decide (input_type = "double") then ("number", Some "double")
  else if decide (input_type = "binary") then ("string", Some "binary")
  else (input_type, None).

Definition typeset : gset string :=
  {[ "binary"; "boolean"; "datetime"; "double"; "dynamicstructure";
     "exception"; "id"; "long"; "opaque"; "secret"; "string"; "uri" ]}.

Definition is_type_builtin (type_ : string) : bool :=
  let type_ := PyStr.lower type_ in
  if decide (type_ ∈ typeset) then true else false.

(** ** PathObjectBuilder *)

Definition TAG_SEPARATOR : string := "/".

Definition tags_from_service_name (service_name : string) : list string :=
  [PyStr.join TAG_SEPARATOR (drop 3 (PyStr.split "." service_name))].

(** [d[k] = v] unless [v] is [None] *)
Definition set_if_not_none (k : string) (v : json) (d : gmap string json)
  : gmap string json :=
  match v with
  | JNull => d
  | _ => <[k := v]> d
  end.

Definition build_path (service_name : string)
    (method path documentation parameters operation_id responses
     consumes produces : json) : gmap string json :=
  let path_obj : gmap string json := ∅ in
  let path_obj :=
    <["tags" := JList (JStr <$> tags_from_service_name service_name)]> path_obj in
  let path_obj := set_if_not_none "method" method path_obj in
  let path_obj := set_if_not_none "path" path path_obj in
  let path_obj := set_if_not_none "summary" documentation path_obj in
  let path_obj := set_if_not_none "parameters" parameters path_obj in
  let path_obj := set_if_not_none "responses" responses path_obj in
  let path_obj := set_if_not_none "consumes" consumes path_obj in
  let path_obj := set_if_not_none "produces" produces path_obj in
  let path_obj := set_if_not_none "operationId" operation_id path_obj in
  path_obj.

Definition add_query_param (url param : string) : string :=
  let pre_param_symbol := "?" in
  let query_index := PyStr.find url "?" in
  if query_index >? -1 then
    if query_index =? PyStr.len url then
      url +:+ "" +:+ param
    else if PyStr.find (PyStr.slice_from (Z.to_nat (query_index + 1)) url) param >? -1 then
      url
    else
      url +:+ "&" +:+ param
  else url +:+ pre_param_symbol +:+ param.

Definition REQUEST_BODIES_PREFIX : string := "#/components/requestBodies/".

(** [bool(v)] *)
Definition truthy (v : json) : bool :=
  match v with
  | JNull => false
  | JBool b => b
  | JInt z => negb (z =? 0)
  | JStr s => if decide (s = "") then false else true
  | JList l => if decide (l = []) then false else true
  | JObj d => if decide (d = ∅) then false else true
  end.

Definition is_str (s : string) (v : json) : bool :=
  match v with
  | JStr s' => if decide (s' = s) then true else false
  | _ => false
  end.

(** ['$ref' in e and e['$ref'].startswith('#/components/requestBodies/')],
    with the reference when the test holds. *)
Definition request_body_ref (e : json) : result (option string) :=
  match e with
  | JObj d =>
      match d !! "$ref" with
      | None => Ok None
      | Some (JStr r) =>
          Ok (if PyStr.startswith r REQUEST_BODIES_PREFIX then Some r else None)
      | Some _ => Raise AttributeError
      end
  | JStr s => if PyStr.find s "$ref" >? -1 then Raise TypeError else Ok None
  | JList l => if existsb (is_str "$ref") l then Raise TypeError else Ok None
  | JNull | JBool _ | JInt _ => Raise TypeError
  end.

(** The [for i in range(len(parameters))] loop with its [break]: the index of
    the first entry that passes the test, and its reference. *)
Fixpoint first_request_body (parameters : list json) (i : nat)
  : result (option (nat * string)) :=
  match parameters with
  | [] => Ok None
  | e :: rest =>
      r ←! request_body_ref e;
      match r with
      | Some ref => Ok (Some (i, ref))
      | None => first_request_body rest (S i)
      end
  end.

(** [path_obj] is the object the caller passes in; the function updates it in
    place, and the result here is the object after the call.  The list bound
    to [parameters] is the very list stored under ['parameters'], so
    [del parameters[index]] is an update of that entry. *)
Definition create_req_body_from_params_list (path_obj : gmap string json)
  : result (gmap string json) :=
  match path_obj !! "parameters" with
  | None => Raise KeyError
  | Some parameters =>
      if truthy parameters then
        match parameters with
        | JList l =>
            found ←! first_request_body l 0;
            match found with
            | None => Ok path_obj
            | Some (index, ref) =>
                let path_obj :=
                  <["requestBody" := JObj {["$ref" := JStr ref]}]> path_obj in
                Ok (<["parameters" := JList (delete index l)]> path_obj)
            end
        | JStr _ => Ok path_obj        (* no single character contains '$ref' *)
        | JObj _ => Raise KeyError     (* parameters[0]: the keys are strings *)
        | _ => Raise TypeError         (* len() of a number *)
        end
      else Ok path_obj
  end.

(** ** The metamodel objects the classifier reads *)

Record ElementValue := { string_value : string }.
Record ElementMap := { elements : gmap string ElementValue }.
Record FieldInfo := { name : string; metadata : gmap string (option ElementMap) }.

#[global] Instance ElementValue_eq_dec : EqDecision ElementValue.
Proof. solve_decision. Defined.
#[global] Instance ElementMap_eq_dec : EqDecision ElementMap.
Proof. solve_decision. Defined.
#[global] Instance FieldInfo_eq_dec : EqDecision FieldInfo.
Proof. solve_decision. Defined.

(** ** ParameterClassifier *)

(** [re_path_param = re.compile('{(.+?)}')]: the opening brace, then at least
    one character other than a newline, as few as possible, then the closing
    brace. *)
Module re_path_param.

(** The characters [.+?] takes after its first one, up to the first closing
    brace; the match fails at a newline or at the end of the string. *)
Fixpoint lazy_rest (s : string) : option string :=
  match s with
  | EmptyString => None
  | String c s' =>
      if decide (c = "}"%char) then Some EmptyString
      else if decide (c = PyStr.newline) then None
      else String c <$> lazy_rest s'
  end.

(** [group(1)] of a match that starts at the brace before [s]. *)
Definition match_group (s : string) : option string :=
  match s with
  | EmptyString => None
  | String c s' =>
      if decide (c = PyStr.newline) then None else String c <$> lazy_rest s'
  end.

(** [group(1)] of every match of [finditer], left to right; matches do not
    overlap.  [skip] counts the characters of the current match that are
    still to be passed. *)
Fixpoint finditer_go (skip : nat) (s : string) : list string :=
  match s with
  | EmptyString => []
  | String c s' =>
      match skip with
      | S k => finditer_go k s'
      | O =>
          if decide (c = "{"%char) then
            match match_group s' with
            | Some g => g :: finditer_go (S (String.length g)) s'
            | None => finditer_go 0 s'
            end
          else finditer_go 0 s'
      end
  end.

Definition finditer (s : string) : list string := finditer_go 0 s.

(** [group()] of the match whose [group(1)] is [g] *)
Definition group0 (g : string) : string := "{" +:+ g +:+ "}".

End re_path_param.

Definition is_param_path_variable (param : FieldInfo)
    (path_param_placeholder : string) : result bool :=
  if decide (name param = path_param_placeholder) then Ok true
  else match metadata param !! "PathVariable" with
       | None => Ok false
       | Some None => Raise AttributeError
       | Some (Some m) =>
           match elements m !! "value" with
           | None => Raise KeyError
           | Some v =>
               Ok (if decide (string_value v = path_param_placeholder)
                   then true else false)
           end
       end.

(** [l.remove(x)] *)
Fixpoint list_remove (x : FieldInfo) (l : list FieldInfo)
  : result (list FieldInfo) :=
  match l with
  | [] => Raise ValueError
  | y :: l' =>
      if decide (y = x) then Ok l'
      else l'' ←! list_remove x l'; Ok (y :: l'')
  end.

(** The variables of the loop of [extract_path_parameters], and what [eprint]
    has written. *)
Record Extraction := {
  path_params : list FieldInfo;
  other_params : list FieldInfo;
  new_url : string;
  stderr : list string
}.

(** The inner [for param in other_params] loop with its [break]. *)
Fixpoint find_path_param (params : list FieldInfo) (placeholder : string)
    (new_url : string) : result (option FieldInfo * string) :=
  match params with
  | [] => Ok (None, new_url)
  | param :: rest =>
      b ←! is_param_path_variable param placeholder;
      if b then
        Ok (Some param,
            if decide (name param ≠ placeholder)
            then PyStr.replace new_url (re_path_param.group0 placeholder)
                   ("{" +:+ name param +:+ "}")
            else new_url)
      else find_path_param rest placeholder new_url
  end.

Definition not_found_message (placeholder url : string) : string :=
  placeholder +:+ " parameter from " +:+ url +:+
    " is not found among the operation's parameters".

(** One iteration of the outer loop, for the match whose [group(1)] is
    [placeholder]. *)
Definition extract_step (url : string) (st : Extraction) (placeholder : string)
  : result Extraction :=
  '(path_param_info, new_url') ←! find_path_param (other_params st) placeholder (new_url st);
  match path_param_info with
  | None =>
      Ok {| path_params := path_params st;
            other_params := other_params st;
            new_url := new_url';
            stderr := stderr st ++ [not_found_message placeholder url] |}
  | Some info =>
      others ←! list_remove info (other_params st);
      Ok {| path_params := path_params st ++ [info];
            other_params := others;
            new_url := new_url';
            stderr := stderr st |}
  end.

Fixpoint extract_loop (url : string) (st : Extraction) (matches : list string)
  : result Extraction :=
  match matches with
  | [] => Ok st
  | placeholder :: rest =>
      st' ←! extract_step url st placeholder;
      extract_loop url st' rest
  end.

Definition extract_path_parameters (params : list FieldInfo) (url : string)
  : result Extraction :=
  extract_loop url
    {| path_params := []; other_params := params; new_url := url; stderr := [] |}
    (re_path_param.finditer url).

(** ** ErrorStatusMapper *)

(** [int(s)] for a string of 8-bit characters.  The whitespace around the
    text is dropped: the characters that [str.isspace] accepts and that the
    conversion strips are the code points 9 to 13, 32, 133 and 160 (the
    separators 28 to 31 are not stripped: [int('\x1c404')] raises).  A sign
    may come first, directly before the digits; the digits are ASCII digits
    and may be separated by single underscores.  A text of more than
    [max_str_digits] digits is refused, as the interpreter does by default.
    Every refusal is a [ValueError]. *)
Module PyInt.

Definition is_space (c : ascii) : bool :=
  let n := nat_of_ascii c in
  ((9 <=? n) && (n <=? 13) || (n =? 32) || (n =? 133) || (n =? 160))%nat.

Fixpoint lstrip (s : string) : string :=
  match s with
  | EmptyString => EmptyString
  | String c s' => if is_space c then lstrip s' else s
  end.

Definition strip (s : string) : string :=
  String.rev (lstrip (String.rev (lstrip s))).

(** [sys.int_info.default_max_str_digits] *)
Definition max_str_digits : Z := 4300.

(** [acc] is the value of the digits read so far and [count] their number;
    [after_digit] tells whether the last character read was a digit. *)
Fixpoint digits (acc count : Z) (after_digit : bool) (s : string) : option Z :=
  match s with
  | EmptyString =>
      if after_digit && (count <=? max_str_digits)%Z then Some acc else None
  | String c s' =>
      match Ascii.is_nat c with
      | Some d => digits (10 * acc + Z.of_nat d) (count + 1) true s'
      | None =>
          if decide (c = "_"%char)
          then if after_digit then digits acc count false s' else None
          else None
      end
  end.

Definition parse (s : string) : option Z :=
  match strip s with
  | String "-" s' => Z.opp <$> digits 0 0 false s'
  | String "+" s' => digits 0 0 false s'
  | s' => digits 0 0 false s'
  end.

Definition int (s : string) : result Z :=
  match parse s with
  | Some z => Ok z
  | None => Raise ValueError
  end.

End PyInt.

Record StructureInfo := { structure_metadata : gmap string (option ElementMap) }.
Record PackageInfo := { structures : list (string * StructureInfo) }.
Record ComponentInfo := { packages : gmap string PackageInfo }.
Record ComponentData := { info : ComponentInfo }.

(** The status codes of [http_client] that the table uses *)
Module http_client.
Definition BAD_REQUEST : Z := 400.
Definition UNAUTHORIZED : Z := 401.
Definition FORBIDDEN : Z := 403.
Definition NOT_FOUND : Z := 404.
Definition INTERNAL_SERVER_ERROR : Z := 500.
Definition SERVICE_UNAVAILABLE : Z := 503.
Definition GATEWAY_TIMEOUT : Z := 504.
End http_client.

Definition default_error_rest_map : gmap string Z :=
  list_to_map
    [ ("com.vmware.vapi.std.errors.already_exists", http_client.BAD_REQUEST);
      ("com.vmware.vapi.std.errors.already_in_desired_state", http_client.BAD_REQUEST);
      ("com.vmware.vapi.std.errors.feature_in_use", http_client.BAD_REQUEST);
      ("com.vmware.vapi.std.errors.internal_server_error", http_client.INTERNAL_SERVER_ERROR);
      ("com.vmware.vapi.std.errors.invalid_argument", http_client.BAD_REQUEST);
      ("com.vmware.vapi.std.errors.invalid_element_configuration", http_client.BAD_REQUEST);
      ("com.vmware.vapi.std.errors.invalid_element_type", http_client.BAD_REQUEST);
      ("com.vmware.vapi.std.errors.invalid_request", http_client.BAD_REQUEST);
      ("com.vmware.vapi.std.errors.not_found", http_client.NOT_FOUND);
      ("com.vmware.vapi.std.errors.operation_not_found", http_client.NOT_FOUND);
      ("com.vmware.vapi.std.errors.not_allowed_in_current_state", http_client.BAD_REQUEST);
      ("com.vmware.vapi.std.errors.resource_busy", http_client.BAD_REQUEST);
      ("com.vmware.vapi.std.errors.resource_in_use", http_client.BAD_REQUEST);
      ("com.vmware.vapi.std.errors.resource_inaccessible", http_client.BAD_REQUEST);
      ("com.vmware.vapi.std.errors.service_unavailable", http_client.SERVICE_UNAVAILABLE);
      ("com.vmware.vapi.std.errors.timed_out", http_client.GATEWAY_TIMEOUT);
      ("com.vmware.vapi.std.errors.unable_to_allocate_resource", http_client.BAD_REQUEST);
      ("com.vmware.vapi.std.errors.unauthenticated", http_client.UNAUTHORIZED);
      ("com.vmware.vapi.std.errors.unauthorized", http_client.FORBIDDEN);
      ("com.vmware.vapi.std.errors.unexpected_input", http_client.BAD_REQUEST);
      ("com.vmware.vapi.std.errors.unsupported", http_client.BAD_REQUEST);
      ("com.vmware.vapi.std.errors.error", http_client.BAD_REQUEST);
      ("com.vmware.vapi.std.errors.concurrent_change", http_client.BAD_REQUEST);
      ("com.vmware.vapi.std.errors.canceled", http_client.BAD_REQUEST);
      ("com.vmware.vapi.std.errors.unverified_peer", http_client.BAD_REQUEST) ].

Record HttpErrorMap := {
  component_svc : gmap string ComponentData;
  error_api_map : gmap string Z;
  error_rest_map : gmap string Z;
  stdout : list string
}.

(** The body of the [try] for one structure: the new [error_api_map]. *)
Definition read_error_code (structure : string) (s : StructureInfo)
    (error_api_map : gmap string Z) : result (gmap string Z) :=
  match structure_metadata s !! "Response" with
  | None => Raise KeyError
  | Some None => Ok error_api_map
  | Some (Some response) =>
      match elements response !! "code" with
      | None => Raise KeyError
      | Some v =>
          let code := string_value v in
          n ←! PyInt.int code;
          Ok (<[structure := n]> error_api_map)
      end
  end.

(** One iteration of [for structure in structures], with its
    [except KeyError]: the map and what [print] has written. *)
Definition scan_structure (st : gmap string Z * list string)
    (entry : string * StructureInfo) : result (gmap string Z * list string) :=
  let '(error_api_map, out) := st in
  let '(structure, s) := entry in
  match read_error_code structure s error_api_map with
  | Ok m => Ok (m, out)
  | Raise KeyError =>
      Ok (error_api_map, out ++ [structure +:+ " :: is does not have an Error Code"])
  | Raise e => Raise e
  end.

Fixpoint scan_structures (st : gmap string Z * list string)
    (entries : list (string * StructureInfo))
  : result (gmap string Z * list string) :=
  match entries with
  | [] => Ok st
  | entry :: rest => st' ←! scan_structure st entry; scan_structures st' rest
  end.

(** [HttpErrorMap.__init__]; iterating over the dictionary [structures] and
    indexing it with each key visits its items in order.  [component_svc] is
    read with [get] as a dictionary is; the statements about the constructor
    are about a [component_svc] that holds the component and its package. *)
Definition HttpErrorMap_init (component_svc : gmap string ComponentData)
  : result HttpErrorMap :=
  match component_svc !! "com.vmware.vapi" with
  | None => Raise AttributeError
  | Some component =>
      match packages (info component) !! "com.vmware.vapi.std.errors" with
      | None => Raise KeyError
      | Some package =>
          '(api_map, out) ←! scan_structures (∅, []) (structures package);
          Ok {| component_svc := component_svc;
                error_api_map := api_map;
                error_rest_map := default_error_rest_map;
                stdout := out |}
      end
  end.

(** * The other helpers of the module *)

(** ** Further string methods *)

(** [s.endswith(suffix)] *)
Fixpoint endswith (s suffix : string) : bool :=
  if decide (s = suffix) then true
  else match s with
       | EmptyString => false
       | String _ s' => endswith s' suffix
       end.

(** [s.isascii()] *)
Fixpoint isascii (s : string) : bool :=
  match s with
  | EmptyString => true
  | String c s' => (nat_of_ascii c <? 128)%nat && isascii s'
  end.

(** [c.upper()] for an ASCII character [c]: the letters [a] to [z] become
    [A] to [Z] and the other ASCII characters stay.  Beyond ASCII [str.upper]
    does more (['ß'.upper()] is ['SS'], ['é'.upper()] is ['É']), which this
    function does not follow: it stands for [str.upper] on the strings that
    [isascii] accepts, and the statements that go through it are about such
    strings. *)
Definition upper_char (c : ascii) : ascii :=
  let n := nat_of_ascii c in
  if ((97 <=? n) && (n <=? 122))%nat then ascii_of_nat (n - 32) else c.

(** [word[:1].upper() + word[1:]] *)
Definition capitalize_first (word : string) : string :=
  match word with
  | EmptyString => EmptyString
  | String c rest => String (upper_char c) rest
  end.

(** ** Stability filter *)

Definition is_filtered (metadata : gmap string (option ElementMap)) : bool :=
  if decide (size metadata = 0%nat) then false
  else if decide ("TechPreview" ∈ dom metadata) then false
  else if decide ("Changing" ∈ dom metadata ∨ "Proposed" ∈ dom metadata) then true
  else false.

(** ** Body and query parameters *)

Definition is_body_param (param : FieldInfo) : Prop :=
  "Body" ∈ dom (metadata param) ∨ "BodyField" ∈ dom (metadata param).

Definition is_query_param (param : FieldInfo) : Prop :=
  "Query" ∈ dom (metadata param).

(** The loop of [extract_body_parameters], with the two lists it appends
    to *)
Fixpoint extract_body_loop (params body_params other_params : list FieldInfo)
  : list FieldInfo * list FieldInfo :=
  match params with
  | [] => (body_params, other_params)
  | param :: rest =>
      if decide (is_body_param param)
      then extract_body_loop rest (body_params ++ [param]) other_params
      else extract_body_loop rest body_params (other_params ++ [param])
  end.

Definition extract_body_parameters (params : list FieldInfo)
  : list FieldInfo * list FieldInfo :=
  extract_body_loop params [] [].

Fixpoint extract_query_loop (params query_params other_params : list FieldInfo)
  : list FieldInfo * list FieldInfo :=
  match params with
  | [] => (query_params, other_params)
  | param :: rest =>
      if decide (is_query_param param)
      then extract_query_loop rest (query_params ++ [param]) other_params
      else extract_query_loop rest query_params (other_params ++ [param])
  end.

Definition extract_query_parameters (params : list FieldInfo)
  : list FieldInfo * list FieldInfo :=
  extract_query_loop params [] [].

(** ** Brace stripping *)

Definition remove_curly_braces (string_name : string) : string :=
  let string_name :=
    if PyStr.has_char "{" string_name
    then PyStr.replace string_name "{" "" else string_name in
  let string_name :=
    if PyStr.has_char "}" string_name
    then PyStr.replace string_name "}" "" else string_name in
  string_name.

(** ** Basic authentication *)

Definition SESSION_PATH : string := "/com/vmware/cis/session".

(** [[{'basic_auth': []}]] *)
Definition BASIC_AUTH_SECURITY : json := JList [JObj {[ "basic_auth" := JList [] ]}].

(** The path object is updated in place and returned; [and] looks up
    ['method'] only when the path is the session path. *)
Definition add_basic_auth (path_obj : gmap string json)
  : result (gmap string json) :=
  match path_obj !! "path" with
  | None => Raise KeyError
  | Some path =>
      if is_str SESSION_PATH path then
        match path_obj !! "method" with
        | None => Raise KeyError
        | Some method =>
            if is_str "post" method
            then Ok (<["security" := BASIC_AUTH_SECURITY]> path_obj)
            else Ok path_obj
        end
      else Ok path_obj
  end.

(** ** Reference renaming *)

(** [recursive_ref_update] on one value [v] of the dictionary: a string that
    ends with [old] has every [old] in it replaced; the dictionaries among
    the elements of a list, and a dictionary, are updated in the same way.
    The dictionaries are updated in place; the structure is taken to be a
    tree, with no dictionary reachable twice. *)
Fixpoint ref_update_value (old updated : string) (v : json) : json :=
  match v with
  | JStr s =>
      if endswith s old then JStr (PyStr.replace s old updated) else v
  | JList l =>
      JList ((λ element,
                match element with
                | JObj d => JObj (ref_update_value old updated <$> d)
                | _ => element
                end) <$> l)
  | JObj d => JObj (ref_update_value old updated <$> d)
  | _ => v
  end.

Definition recursive_ref_update (dict_obj : gmap string json)
    (old updated : string) : gmap string json :=
  ref_update_value old updated <$> dict_obj.

(** ** Merging dictionaries of lists *)

Section combine.

(** [list(set(l))]: the elements of [l], each once, in the order the set
    yields them. *)
Variable list_of_set : list string → list string.

(** One iteration of [for k, v in added.items()] *)
Definition combine_entry (k : string) (v : list string)
    (extended : gmap string (list string)) : gmap string (list string) :=
  match extended !! k with
  | None => <[k := v]> extended
  | Some list_to_extend => <[k := list_of_set (list_to_extend ++ v)]> extended
  end.

(** [extended] after the call *)
Definition combine_dicts_with_list_values
    (extended added : gmap string (list string)) : gmap string (list string) :=
  map_fold combine_entry extended added.

End combine.

(** ** Camel case *)

Definition is_alnum (c : ascii) : bool :=
  let n := nat_of_ascii c in
  ((48 <=? n) && (n <=? 57) || (65 <=? n) && (n <=? 90)
   || (97 <=? n) && (n <=? 122))%nat.

(** A delimiter of one character that is no letter and no digit: after the
    backslash that [get_str_camel_case] puts before it, the pattern matches
    that character. *)
Record delimiter := {
  delimiter_char : ascii;
  delimiter_literal : Is_true (negb (is_alnum delimiter_char))
}.

(** The pattern ['\\'] of a call without delimiters *)
Inductive re_error := bad_escape_end_of_pattern.

(** [re.split(delimiter_regex, string)] for an alternation of characters *)
Fixpoint re_split (delimiters : list ascii) (s : string) : list string :=
  match s with
  | EmptyString => [EmptyString]
  | String c s' =>
      if decide (c ∈ delimiters) then EmptyString :: re_split delimiters s'
      else match re_split delimiters s' with
           | word :: words => String c word :: words
           | [] => [String c EmptyString]
           end
  end.

Definition CAMELCASE_SEPARATOR_LIST : list delimiter :=
  [ {| delimiter_char := "."; delimiter_literal := I |};
    {| delimiter_char := "_"; delimiter_literal := I |} ].

Definition get_str_camel_case (string_ : string) (delimiters : list delimiter)
  : re_error + string :=
  match delimiters with
  | [] => inl bad_escape_end_of_pattern
  | _ =>
      let words :=
        capitalize_first <$> re_split (delimiter_char <$> delimiters) string_ in
      inr (PyStr.join "" words)
  end.

(** * The vocabulary of the statements *)

(** ** Strings *)

(** [t] occurs in [s]. *)
Definition occurs (t s : string) : Prop := ∃ b c, s = b +:+ t +:+ c.

(** [{t}] *)
Abbreviation braced t := (String "{" (t +:+ "}")).

(** A placeholder text, or a parameter name, of the usual kind: not empty,
    without braces and without a newline. *)
Definition plain (t : string) : Prop :=
  t ≠ ""
  ∧ PyStr.has_char "{" t = false
  ∧ PyStr.has_char "}" t = false
  ∧ PyStr.has_char PyStr.newline t = false.

#[global] Instance plain_dec t : Decision (plain t).
Proof. unfold plain. apply _. Defined.

(** ** Type names *)

(** The translation table of the specification: type name, Swagger type,
    format. *)
Definition translation_table : list (string * (string * option string)) :=
  [ ("date_time", ("string", Some "date-time"));
    ("secret", ("string", Some "password"));
    ("any_error", ("string", None));
    ("opaque", ("object", None));
    ("dynamic_structure", ("object", None));
    ("uri", ("string", Some "uri"));
    ("id", ("string", None));
    ("long", ("integer", Some "int64"));
    ("double", ("number", Some "double"));
    ("binary", ("string", Some "binary")) ].

(** The names [is_type_builtin] accepts. *)
Definition builtin_names : list string :=
  [ "binary"; "boolean"; "datetime"; "double"; "dynamicstructure"; "exception";
    "id"; "long"; "opaque"; "secret"; "string"; "uri" ].

(** Equality of two names when the case of their letters is ignored. *)
Definition same_ignoring_case (s t : string) : Prop := PyStr.lower s = PyStr.lower t.

(** ** Entries of a parameter list *)

(** An entry that is a reference to a request body *)
Definition request_body_entry (ref : string) (e : json) : Prop :=
  ∃ d rest, e = JObj d ∧ d !! "$ref" = Some (JStr ref)
            ∧ ref = REQUEST_BODIES_PREFIX +:+ rest.

(** An entry that is an object and no reference to a request body *)
Definition plain_entry (e : json) : Prop :=
  ∃ d, e = JObj d
       ∧ (d !! "$ref" = None
          ∨ ∃ r, d !! "$ref" = Some (JStr r)
                 ∧ ∀ rest, r ≠ REQUEST_BODIES_PREFIX +:+ rest).

(** ** Declared error structures *)

(** The structure has a [Response] annotation whose [code] is [text]. *)
Definition has_code_text (text : string) (s : StructureInfo) : Prop :=
  ∃ response v, structure_metadata s !! "Response" = Some (Some response)
                ∧ elements response !! "code" = Some v
                ∧ string_value v = text.

(** The structure has no [Response] annotation, or one without [code]. *)
Definition lacks_annotation (s : StructureInfo) : Prop :=
  structure_metadata s !! "Response" = None
  ∨ ∃ response, structure_metadata s !! "Response" = Some (Some response)
                ∧ elements response !! "code" = None.

(** What the constructor prints for such a structure *)
Definition missing_message (structure : string) : string :=
  structure +:+ " :: is does not have an Error Code".

Module error_examples.

Definition package (l : list (string * StructureInfo)) : PackageInfo :=
  {| structures := l |}.

Definition component (l : list (string * StructureInfo)) : ComponentData :=
  {| info := {| packages := {[ "com.vmware.vapi.std.errors" := package l ]} |} |}.

Definition with_structures (l : list (string * StructureInfo))
  : gmap string ComponentData :=
  {[ "com.vmware.vapi" := component l ]}.

Definition response (code : string) : StructureInfo :=
  {| structure_metadata :=
       {[ "Response" :=
            Some {| elements := {[ "code" := {| string_value := code |} ]} |} ]} |}.

Definition no_response : StructureInfo := {| structure_metadata := ∅ |}.

Definition not_found : string := "com.vmware.vapi.std.errors.not_found".

Definition declared : list (string * StructureInfo) :=
  [ (not_found, no_response);
    ("com.vmware.vapi.std.errors.error", response "4o4") ].

End error_examples.

(** ** Parameters and placeholders *)

(** The [PathVariable] metadata of [param] has the value [value]. *)
Definition path_variable_value (param : FieldInfo) (value : string) : Prop :=
  ∃ m v, metadata param !! "PathVariable" = Some (Some m)
         ∧ elements m !! "value" = Some v ∧ string_value v = value.

(** A parameter matches a placeholder by its name or by the value of its
    [PathVariable] metadata. *)
Definition matches (placeholder : string) (param : FieldInfo) : Prop :=
  name param = placeholder ∨ path_variable_value param placeholder.

(** A parameter with well-formed metadata that does not match *)
Definition differs (placeholder : string) (param : FieldInfo) : Prop :=
  name param ≠ placeholder
  ∧ (metadata param !! "PathVariable" = None
     ∨ ∃ value, path_variable_value param value ∧ value ≠ placeholder).

(** Metadata in the shape the classifier expects: a [PathVariable] tag has a
    [value] element. *)
Definition well_tagged (param : FieldInfo) : Prop :=
  metadata param !! "PathVariable" = None ∨ ∃ value, path_variable_value param value.

(** The URL after the placeholder has been given to [param]. *)
Definition rewritten (placeholder : string) (param : FieldInfo) (url : string)
  : string :=
  if decide (name param = placeholder) then url
  else PyStr.replace url (braced placeholder) (braced (name param)).

(** What a rewrite does to one placeholder. *)
Definition rename (a b t : string) : string := if decide (t = a) then b else t.

(** What is known of a placeholder of the working URL while the
    placeholders [pending] are still to be handled. *)
Definition settled (url : string) (st : Extraction) (pending : list string)
    (t : string) : Prop :=
  (∃ p, p ∈ path_params st ∧ name p = t)
  ∨ (t ∈ re_path_param.finditer url
     ∧ not_found_message t url ∈ stderr st
     ∧ Forall (differs t) (other_params st))
  ∨ t ∈ pending.

(** What became of the placeholders of a URL, one entry for each in the
    order of the URL: the parameter that took the placeholder, or [None] for
    a placeholder that found none. *)
Definition Trace : Type := list (string * option FieldInfo).

(** The parameters that took a placeholder, in the order of the URL *)
Definition taken (trace : Trace) : list FieldInfo := omap snd trace.

(** The messages for the placeholders that found no parameter, in the order
    of the URL *)
Definition reported (url : string) (trace : Trace) : list string :=
  omap (λ entry, match entry.2 with
                 | None => Some (not_found_message entry.1 url)
                 | Some _ => None
                 end) trace.

(** An entry agrees with the parameters [others] that are left at the end:
    the parameter of the entry matches its placeholder, and a placeholder
    without parameter is matched by none of [others]. *)
Definition accounted (others : list FieldInfo)
    (entry : string * option FieldInfo) : Prop :=
  match entry.2 with
  | Some p => matches entry.1 p
  | None => Forall (differs entry.1) others
  end.

Module path_examples.

(** A parameter [n] whose [PathVariable] metadata has the value [v] *)
Definition path_variable (n v : string) : FieldInfo :=
  {| name := n;
     metadata :=
       {[ "PathVariable" :=
            Some {| elements := {[ "value" := {| string_value := v |} ]} |} ]} |}.

(** A parameter without metadata *)
Definition untagged (n : string) : FieldInfo := {| name := n; metadata := ∅ |}.

Definition resource_pool : FieldInfo := path_variable "resource_pool" "resource-pool".


End path_examples.

(** ** Statements about the other helpers *)

(** [s] without the characters [c] *)
Fixpoint without_char (c : ascii) (s : string) : string :=
  match s with
  | EmptyString => EmptyString
  | String d s' => if decide (d = c) then without_char c s' else String d (without_char c s')
  end.

(** How many characters of [s] are among [cs] *)
Fixpoint count_chars (cs : list ascii) (s : string) : nat :=
  match s with
  | EmptyString => 0
  | String c s' => (if decide (c ∈ cs) then 1 else 0) + count_chars cs s'
  end.

(** An argument of [build_path] as an entry of the path object: [None] has
    no entry. *)
Definition present (v : json) : option json :=
  match v with
  | JNull => None
  | _ => Some v
  end.

(** The structure declares the status code [n]. *)
Definition has_code (n : Z) (s : StructureInfo) : Prop :=
  ∃ text, has_code_text text s ∧ PyInt.parse text = Some n.

(** The structure's code is no integer literal. *)
Definition has_malformed_code (s : StructureInfo) : Prop :=
  ∃ text, has_code_text text s ∧ PyInt.parse text = None.

(** The keys [build_path] can set *)
Definition BUILD_PATH_KEYS : list string :=
  [ "tags"; "method"; "path"; "summary"; "parameters"; "responses";
    "consumes"; "produces"; "operationId" ].

(** What [combine_dicts_with_list_values] leaves under a key that holds
    [old] in [extended] and [new] in [added] *)
Definition combined (list_of_set : list string → list string)
    (old new : option (list string)) : option (list string) :=
  match new with
  | None => old
  | Some v =>
      match old with
      | None => Some v
      | Some list_to_extend => Some (list_of_set (list_to_extend ++ v))
      end
  end.

Module more_examples.

Definition tagged (n : string) (tags : list string) : FieldInfo :=
  {| name := n; metadata := list_to_map ((λ t, (t, None)) <$> tags) |}.

Definition session : gmap string json :=
  build_path "com.vmware.cis.session" (JStr "post") (JStr "/com/vmware/cis/session")
    (JStr "Creates a session") JNull (JStr "create") JNull JNull JNull.

End more_examples.

(** * Properties *)

#[local] Open Scope nat_scope.

(** ** Strings *)

Section strings.
Implicit Types (s t u : string) (c d : ascii).

Lemma str_app_nil_l s : "" +:+ s = s.
Proof. reflexivity. Qed.

Lemma str_app_cons c s t : String c s +:+ t = String c (s +:+ t).
Proof. reflexivity. Qed.

Lemma str_app_char c s : String c "" +:+ s = String c s.
Proof. reflexivity. Qed.

Lemma str_app_nil_r s : s +:+ "" = s.
Proof. induction s as [|c s IH]; [done|]. by rewrite str_app_cons, IH. Qed.

Lemma str_app_assoc s t u : (s +:+ t) +:+ u = s +:+ t +:+ u.
Proof. induction s as [|c s IH]; [done|]. by rewrite !str_app_cons, IH. Qed.

Lemma str_length_app s t : String.length (s +:+ t) = String.length s + String.length t.
Proof. induction s as [|c s IH]; [done|]. rewrite str_app_cons. simpl. by rewrite IH. Qed.

Lemma startswith_nil s : PyStr.startswith s "" = true.
Proof. by destruct s. Qed.

Lemma startswith_cons c d s t :
  PyStr.startswith (String d s) (String c t)
  = if decide (c = d) then PyStr.startswith s t else false.
Proof. reflexivity. Qed.

Lemma startswith_spec s t : PyStr.startswith s t = true ↔ ∃ u, s = t +:+ u.
Proof.
  revert s. induction t as [|c t IH]; intros s.
  - rewrite startswith_nil. split; [|done]. intros _. by exists s.
  - destruct s as [|d s].
    + split; [done|]. intros [u Hu]. by rewrite str_app_cons in Hu.
    + rewrite startswith_cons. destruct (decide (c = d)) as [->|Hne].
      * rewrite IH. split; intros [u Hu]; exists u.
        -- by rewrite str_app_cons, Hu.
        -- rewrite str_app_cons in Hu. by simplify_eq.
      * split; [done|]. intros [u Hu]. rewrite str_app_cons in Hu. by simplify_eq.
Qed.

Lemma startswith_app s t : PyStr.startswith (s +:+ t) s = true.
Proof. apply startswith_spec. by exists t. Qed.

Lemma startswith_refl s : PyStr.startswith s s = true.
Proof. apply startswith_spec. exists "". by rewrite str_app_nil_r. Qed.

Lemma find_nil t : PyStr.find "" t = if PyStr.startswith "" t then 0%Z else (-1)%Z.
Proof. reflexivity. Qed.

Lemma find_cons c s t :
  PyStr.find (String c s) t
  = if PyStr.startswith (String c s) t then 0%Z
    else if (PyStr.find s t =? -1)%Z then (-1)%Z else (PyStr.find s t + 1)%Z.
Proof. reflexivity. Qed.

(** [find] answers [-1] or an index of the string. *)
Lemma find_range s t :
  PyStr.find s t = (-1)%Z ∨ (0 ≤ PyStr.find s t ≤ PyStr.len s)%Z.
Proof.
  unfold PyStr.len. induction s as [|c s IH].
  - rewrite find_nil. destruct (PyStr.startswith "" t); simpl; lia.
  - rewrite find_cons. destruct (PyStr.startswith _ t); [simpl; lia|].
    destruct (Z.eqb_spec (PyStr.find s t) (-1)); [lia|]. simpl String.length. lia.
Qed.

Lemma find_startswith s t : PyStr.startswith s t = true → PyStr.find s t = 0%Z.
Proof. intros H. destruct s; [rewrite find_nil|rewrite find_cons]; by rewrite H. Qed.

(** An occurrence anywhere makes [find] succeed. *)
Lemma find_occurrence s t u : (0 ≤ PyStr.find (s +:+ t +:+ u) t)%Z.
Proof.
  induction s as [|c s IH].
  - rewrite str_app_nil_l, find_startswith; [done|apply startswith_app].
  - rewrite str_app_cons, find_cons. destruct (PyStr.startswith _ t); [done|].
    destruct (Z.eqb_spec (PyStr.find (s +:+ t +:+ u) t) (-1)); lia.
Qed.

(** [find] with a needle of one character *)
Lemma find_char_app_found c s t :
  (0 ≤ PyStr.find s (String c ""))%Z →
  PyStr.find (s +:+ t) (String c "") = PyStr.find s (String c "")
  ∧ (PyStr.find s (String c "") < PyStr.len s)%Z.
Proof.
  unfold PyStr.len. induction s as [|d s IH]; [done|].
  rewrite str_app_cons, !find_cons, !startswith_cons, !startswith_nil.
  destruct (decide (c = d)); [simpl; lia|].
  destruct (Z.eqb_spec (PyStr.find s (String c "")) (-1)); [lia|].
  intros _. destruct IH as [-> ?]; [destruct (find_range s (String c "")); lia|].
  destruct (Z.eqb_spec (PyStr.find s (String c "")) (-1)); [lia|].
  simpl String.length. lia.
Qed.

Lemma find_char_app_missing c s t :
  PyStr.find s (String c "") = (-1)%Z →
  PyStr.find (s +:+ String c t) (String c "") = PyStr.len s.
Proof.
  unfold PyStr.len. induction s as [|d s IH].
  - intros _. rewrite str_app_nil_l, find_cons, startswith_cons, startswith_nil.
    by rewrite decide_True.
  - rewrite str_app_cons, !find_cons, !startswith_cons, !startswith_nil.
    destruct (decide (c = d)); [done|].
    destruct (Z.eqb_spec (PyStr.find s (String c "")) (-1)) as [Heq|];
      [|destruct (find_range s (String c "")); lia].
    intros _. rewrite (IH Heq).
    destruct (Z.eqb_spec (Z.of_nat (String.length s)) (-1)); [lia|].
    simpl String.length. lia.
Qed.

Lemma slice_from_app n s t :
  n ≤ String.length s →
  PyStr.slice_from n (s +:+ t) = PyStr.slice_from n s +:+ t.
Proof.
  revert s. induction n as [|n IH]; intros s Hn; [done|].
  destruct s as [|c s]; simpl in Hn; [lia|].
  rewrite str_app_cons. simpl. apply IH. lia.
Qed.

Lemma slice_from_length s t : PyStr.slice_from (String.length s) (s +:+ t) = t.
Proof. induction s as [|c s IH]; [by destruct t|]. by rewrite str_app_cons. Qed.

End strings.

Section find.
Implicit Types (s t u : string) (c d : ascii).

Lemma find_found s t : (0 ≤ PyStr.find s t)%Z → occurs t s.
Proof.
  induction s as [|c s IH].
  - rewrite find_nil. destruct (PyStr.startswith "" t) eqn:E; [|done].
    intros _. apply startswith_spec in E as [u ->]. by exists "", u.
  - rewrite find_cons. destruct (PyStr.startswith _ t) eqn:E.
    + intros _. apply startswith_spec in E as [u ->]. by exists "", u.
    + destruct (Z.eqb_spec (PyStr.find s t) (-1)); [done|]. intros _.
      destruct IH as (b & e & ->); [destruct (find_range s t); lia|].
      by exists (String c b), e.
Qed.

Lemma find_occurs s t : (0 ≤ PyStr.find s t)%Z ↔ occurs t s.
Proof.
  split; [apply find_found|]. intros (b & c & ->). apply find_occurrence.
Qed.

Lemma find_not_occurs s t : PyStr.find s t = (-1)%Z ↔ ¬ occurs t s.
Proof.
  rewrite <-find_occurs. destruct (find_range s t); lia.
Qed.

Lemma find_char_none c s :
  PyStr.has_char c s = false → PyStr.find s (String c "") = (-1)%Z.
Proof.
  induction s as [|d s IH]; [done|]. simpl PyStr.has_char.
  rewrite find_cons, startswith_cons, startswith_nil.
  destruct (decide (c = d)); [done|]. intros H. by rewrite (IH H).
Qed.

End find.

(** ** Query-string augmentation *)

Section add_query_param.
Implicit Types url param : string.

Lemma add_query_param_no_query url param :
  PyStr.find url "?" = (-1)%Z →
  add_query_param url param = url +:+ "?" +:+ param.
Proof. unfold add_query_param. by intros ->. Qed.

Lemma add_query_param_query url param :
  (0 ≤ PyStr.find url "?")%Z →
  add_query_param url param
  = if (PyStr.find (PyStr.slice_from (Z.to_nat (PyStr.find url "?" + 1)) url) param >? -1)%Z
    then url else url +:+ "&" +:+ param.
Proof.
  intros Hq. unfold add_query_param.
  destruct (find_char_app_found "?" url "" Hq) as [_ Hlt].
  destruct (Z.gtb_spec (PyStr.find url "?") (-1)); [|lia].
  destruct (Z.eqb_spec (PyStr.find url "?") (PyStr.len url)); [lia|done].
Qed.

(** The part of [a ? rest] after its first question mark is [rest]. *)
Lemma query_string a rest :
  PyStr.has_char "?" a = false →
  PyStr.find (a +:+ String "?" rest) "?" = PyStr.len a
  ∧ PyStr.slice_from (Z.to_nat (PyStr.len a + 1)) (a +:+ String "?" rest) = rest.
Proof.
  intros Ha. split; [by apply find_char_app_missing, find_char_none|].
  unfold PyStr.len.
  replace (Z.to_nat (Z.of_nat (String.length a) + 1))
    with (String.length (a +:+ "?")) by (rewrite str_length_app; simpl; lia).
  replace (a +:+ String "?" rest) with ((a +:+ "?") +:+ rest)
    by (by rewrite str_app_assoc).
  apply slice_from_length.
Qed.

Lemma add_query_param_twice url param :
  add_query_param (add_query_param url param) param = add_query_param url param.
Proof.
  destruct (find_range url "?") as [Hq|[Hq _]].
  - rewrite (add_query_param_no_query url param Hq).
    pose proof (find_char_app_missing "?" url param Hq) as Hq'.
    rewrite <-str_app_char in Hq'.
    rewrite add_query_param_query by (rewrite Hq'; unfold PyStr.len; lia).
    rewrite Hq'. unfold PyStr.len at 1.
    replace (Z.to_nat (Z.of_nat (String.length url) + 1))
      with (String.length (url +:+ "?")) by (rewrite str_length_app; simpl; lia).
    replace (url +:+ "?" +:+ param) with ((url +:+ "?") +:+ param) at 1
      by (by rewrite str_app_assoc).
    rewrite slice_from_length, find_startswith by apply startswith_refl. done.
  - rewrite (add_query_param_query url param Hq).
    destruct (Z.gtb_spec (PyStr.find (PyStr.slice_from
      (Z.to_nat (PyStr.find url "?" + 1)) url) param) (-1)) as [Hin|Hout].
    + rewrite (add_query_param_query url param Hq).
      destruct (Z.gtb_spec (PyStr.find (PyStr.slice_from
        (Z.to_nat (PyStr.find url "?" + 1)) url) param) (-1)); [done|lia].
    + destruct (find_char_app_found "?" url ("&" +:+ param) Hq) as [Hq' Hlt].
      rewrite add_query_param_query by (by rewrite Hq').
      rewrite Hq', slice_from_app by (unfold PyStr.len in Hlt; lia).
      pose proof (find_occurrence
        (PyStr.slice_from (Z.to_nat (PyStr.find url "?" + 1)) url +:+ "&")
        param "") as Hocc.
      rewrite str_app_nil_r, str_app_assoc in Hocc.
      destruct (Z.gtb_spec (PyStr.find (PyStr.slice_from
        (Z.to_nat (PyStr.find url "?" + 1)) url +:+ "&" +:+ param) param) (-1));
        [done|lia].
Qed.

End add_query_param.

(** C7.  [add_query_param] is idempotent.  A URL with no question mark gets
    [?param]; a URL [a?rest], where [a] has no question mark, is returned as
    it is when [param] occurs in [rest] and gets [&param] otherwise.  So
    ["/x?a=1"] with ["b=2"] gives ["/x?a=1&b=2"], and adding ["b=2"] again
    changes nothing. *)
Theorem add_query_param_idempotent :
  ∀ url param,
    add_query_param (add_query_param url param) param = add_query_param url param
    ∧ (PyStr.has_char "?" url = false →
       add_query_param url param = url +:+ "?" +:+ param)
    ∧ (∀ a rest, url = a +:+ "?" +:+ rest → PyStr.has_char "?" a = false →
       (occurs param rest → add_query_param url param = url)
       ∧ (¬ occurs param rest → add_query_param url param = url +:+ "&" +:+ param))
    ∧ add_query_param "/x?a=1" "b=2" = "/x?a=1&b=2"
    ∧ add_query_param "/x?a=1&b=2" "b=2" = "/x?a=1&b=2".
Proof.
  intros url param. split; [apply add_query_param_twice|].
  split; [intros H; by apply add_query_param_no_query, find_char_none|].
  split; [|done].
  intros a rest -> Ha. destruct (query_string a rest Ha) as [Hq Hs].
  change (a +:+ "?" +:+ rest) with (a +:+ String "?" rest).
  rewrite add_query_param_query by (rewrite Hq; unfold PyStr.len; lia).
  rewrite Hq, Hs. split.
  - intros Hocc%find_occurs.
    destruct (Z.gtb_spec (PyStr.find rest param) (-1)); [done|lia].
  - intros Hocc%find_not_occurs.
    destruct (Z.gtb_spec (PyStr.find rest param) (-1)); [lia|done].
Qed.

(** ** TypeMapper *)

Lemma converter_unmatched s :
  PyStr.lower s ∉ translation_table.*1 →
  metamodel_to_swagger_type_converter s = (PyStr.lower s, None).
Proof.
  intros H. unfold metamodel_to_swagger_type_converter.
  repeat case_decide; try done; exfalso; apply H;
    match goal with E : PyStr.lower s = _ |- _ => rewrite E end;
    compute_done.
Qed.

Lemma converter_matched s row :
  row ∈ translation_table → PyStr.lower s = row.1 →
  metamodel_to_swagger_type_converter s = row.2.
Proof.
  intros Hrow Hs. unfold metamodel_to_swagger_type_converter. rewrite Hs.
  unfold translation_table in Hrow.
  repeat (apply elem_of_cons in Hrow as [->|Hrow]; [reflexivity|]).
  by apply elem_of_nil in Hrow.
Qed.

(** C5, as the code has it.  A type name that, in lower case, is none of the
    ten names of the translation table comes back in lower case with no
    format, so it is unchanged exactly when it has no capital letter; a name
    that matches a row gives that row.  ["LONG"] gives [("integer", "int64")]
    and ["custom_struct"] gives [("custom_struct", absent)]. *)
Theorem metamodel_to_swagger_passthrough :
  ∀ input_type,
    (PyStr.lower input_type ∉ translation_table.*1 →
     metamodel_to_swagger_type_converter input_type = (PyStr.lower input_type, None))
    ∧ (PyStr.lower input_type ∉ translation_table.*1 →
       PyStr.lower input_type = input_type →
       metamodel_to_swagger_type_converter input_type = (input_type, None))
    ∧ (∀ row, row ∈ translation_table → PyStr.lower input_type = row.1 →
       metamodel_to_swagger_type_converter input_type = row.2)
    ∧ length translation_table = 10
    ∧ metamodel_to_swagger_type_converter "LONG" = ("integer", Some "int64")
    ∧ metamodel_to_swagger_type_converter "custom_struct" = ("custom_struct", None).
Proof.
  intros s. split; [apply converter_unmatched|].
  split; [intros H E; rewrite <-E at 2; by apply converter_unmatched|].
  split; [intros row; apply converter_matched|done].
Qed.

(** C5 as stated fails: ["Custom_Struct"] matches no row, with or without
    its capitals, and does not come back unchanged. *)
Lemma metamodel_to_swagger_changes_case :
  ("Custom_Struct" ∉ translation_table.*1)
  ∧ (PyStr.lower "Custom_Struct" ∉ translation_table.*1)
  ∧ metamodel_to_swagger_type_converter "Custom_Struct" = ("custom_struct", None)
  ∧ metamodel_to_swagger_type_converter "Custom_Struct" ≠ ("Custom_Struct", None).
Proof.
  split_and!; [compute_done..|done|done].
Qed.

Lemma typeset_names s : s ∈ typeset ↔ s ∈ builtin_names.
Proof.
  unfold typeset, builtin_names.
  rewrite !elem_of_union, !elem_of_singleton, !elem_of_cons, elem_of_nil. tauto.
Qed.

Lemma builtin_names_lower : Forall (λ n, PyStr.lower n = n) builtin_names.
Proof. repeat constructor. Qed.

Lemma builtin_names_NoDup : NoDup builtin_names.
Proof. compute_done. Qed.

Lemma is_type_builtin_iff type_ :
  is_type_builtin type_ = true ↔ ∃ n, n ∈ builtin_names ∧ same_ignoring_case type_ n.
Proof.
  unfold is_type_builtin, same_ignoring_case. case_decide as H.
  - split; [|done]. intros _. exists (PyStr.lower type_).
    apply typeset_names in H. split; [done|].
    pose proof builtin_names_lower as Hl. rewrite Forall_forall in Hl.
    symmetry. by apply Hl.
  - split; [done|]. intros (n & Hn & E). exfalso. apply H, typeset_names.
    pose proof builtin_names_lower as Hl. rewrite Forall_forall in Hl.
    rewrite E, (Hl n Hn). done.
Qed.

(** C6, as the code has it.  [is_type_builtin] accepts exactly the names
    that, ignoring case, are one of twelve type names, and rejects every
    other string. *)
Theorem is_type_builtin_twelve :
  ∀ type_,
    length builtin_names = 12
    ∧ NoDup builtin_names
    ∧ (is_type_builtin type_ = true ↔
       ∃ n, n ∈ builtin_names ∧ same_ignoring_case type_ n)
    ∧ (is_type_builtin type_ = false ↔
       ¬ ∃ n, n ∈ builtin_names ∧ same_ignoring_case type_ n).
Proof.
  intros type_. split; [done|]. split; [apply builtin_names_NoDup|].
  split; [apply is_type_builtin_iff|].
  rewrite <-is_type_builtin_iff. by destruct (is_type_builtin type_).
Qed.

(** C6 as stated fails: twelve names, different even when case is ignored,
    are accepted, so no set of eleven names is the set of accepted ones. *)
Lemma is_type_builtin_not_eleven :
  (length builtin_names = 12
   ∧ NoDup (PyStr.lower <$> builtin_names)
   ∧ Forall (λ n, is_type_builtin n = true) builtin_names)
  ∧ ¬ ∃ names : list string,
        length names = 11
        ∧ ∀ type_, is_type_builtin type_ = true ↔
                   ∃ n, n ∈ names ∧ same_ignoring_case type_ n.
Proof.
  split.
  - split; [done|]. split; [compute_done|].
    apply Forall_forall. intros n Hn. apply is_type_builtin_iff. by exists n.
  - intros (names & Hlen & Hnames).
    assert (builtin_names ⊆+ PyStr.lower <$> names) as Hsub.
    { apply NoDup_submseteq; [apply builtin_names_NoDup|].
      intros n Hn.
      assert (is_type_builtin n = true) as Hacc
        by (apply is_type_builtin_iff; by exists n).
      apply Hnames in Hacc as (m & Hm & E). unfold same_ignoring_case in E.
      pose proof builtin_names_lower as Hl. rewrite Forall_forall in Hl.
      rewrite (Hl n Hn) in E. rewrite E. by apply list_elem_of_fmap_2. }
    apply submseteq_length in Hsub. rewrite length_fmap, Hlen in Hsub.
    simpl in Hsub. lia.
Qed.

(** ** Tags *)

Section split_join.
Variable sep : ascii.
Implicit Types (s w : string) (ws : list string).

Lemma split_cons c s :
  PyStr.split sep (String c s)
  = if decide (c = sep) then "" :: PyStr.split sep s
    else match PyStr.split sep s with
         | w :: ws => String c w :: ws
         | [] => [String c ""]
         end.
Proof. reflexivity. Qed.

Lemma split_not_nil s : PyStr.split sep s ≠ [].
Proof.
  induction s as [|c s IH]; [done|]. rewrite split_cons.
  case_decide; [done|]. by destruct (PyStr.split sep s).
Qed.

Lemma split_no_sep s : Forall (λ w, PyStr.has_char sep w = false) (PyStr.split sep s).
Proof.
  induction s as [|c s IH]; [by repeat constructor|]. rewrite split_cons.
  case_decide as Hc; [by constructor|].
  pose proof (split_not_nil s) as Hne.
  destruct (PyStr.split sep s) as [|w ws]; [done|].
  apply Forall_cons in IH as [Hw Hws]. constructor; [|done].
  simpl. rewrite decide_False by congruence. done.
Qed.

Lemma join_cons_char c w ws :
  PyStr.join (String sep "") (String c w :: ws)
  = String c (PyStr.join (String sep "") (w :: ws)).
Proof. by destruct ws. Qed.

Lemma join_split s : PyStr.join (String sep "") (PyStr.split sep s) = s.
Proof.
  induction s as [|c s IH]; [done|]. rewrite split_cons.
  pose proof (split_not_nil s) as Hne.
  destruct (PyStr.split sep s) as [|w ws]; [done|].
  case_decide as Hc.
  - subst c. change (PyStr.join (String sep "") ("" :: w :: ws))
      with ("" +:+ String sep "" +:+ PyStr.join (String sep "") (w :: ws)).
    by rewrite IH.
  - by rewrite join_cons_char, IH.
Qed.

Lemma split_one w : PyStr.has_char sep w = false → PyStr.split sep w = [w].
Proof.
  induction w as [|c w IH]; [done|]. simpl PyStr.has_char.
  case_decide as Hc; [done|]. intros Hw. rewrite split_cons, (IH Hw).
  by rewrite decide_False by congruence.
Qed.

Lemma split_app_sep w s :
  PyStr.has_char sep w = false →
  PyStr.split sep (w +:+ String sep s) = w :: PyStr.split sep s.
Proof.
  induction w as [|c w IH].
  - intros _. by rewrite str_app_nil_l, split_cons, decide_True.
  - simpl PyStr.has_char. case_decide as Hc; [done|]. intros Hw.
    rewrite str_app_cons, split_cons, (IH Hw). by rewrite decide_False by congruence.
Qed.

Lemma split_join ws :
  ws ≠ [] → Forall (λ w, PyStr.has_char sep w = false) ws →
  PyStr.split sep (PyStr.join (String sep "") ws) = ws.
Proof.
  induction ws as [|w ws IH]; [done|]. intros _ [Hw Hws]%Forall_cons.
  destruct ws as [|w' ws]; [by apply split_one|].
  change (PyStr.join (String sep "") (w :: w' :: ws))
    with (w +:+ String sep "" +:+ PyStr.join (String sep "") (w' :: ws)).
  rewrite str_app_char, split_app_sep, IH; done.
Qed.

End split_join.

Lemma lookup_set_if_not_none_ne k k' v (d : gmap string json) :
  k ≠ k' → set_if_not_none k v d !! k' = d !! k'.
Proof. intros Hk. destruct v; simpl; by rewrite ?lookup_insert_ne. Qed.

Lemma build_path_tags service_name method path documentation parameters
    operation_id responses consumes produces :
  build_path service_name method path documentation parameters operation_id
    responses consumes produces !! "tags"
  = Some (JList (JStr <$> tags_from_service_name service_name)).
Proof.
  unfold build_path. rewrite !lookup_set_if_not_none_ne by done.
  apply lookup_insert_eq.
Qed.

(** C8.  The segments of a service name are the strings without a dot that,
    joined with dots, give the name back.  [build_path] always sets [tags],
    to the one tag that joins the segments from index 3 on with [/]; with
    fewer than four segments the tag is the empty string.
    ["com.vmware.vcenter.VM"] gives [["VM"]] and ["com.vmware.a.b.c"] gives
    [["b/c"]]. *)
Theorem build_path_tags_from_segments :
  ∀ service_name method path documentation parameters operation_id responses
    consumes produces,
    let segments := PyStr.split "." service_name in
    let path_obj := build_path service_name method path documentation
                      parameters operation_id responses consumes produces in
    (segments ≠ []
     ∧ Forall (λ w, PyStr.has_char "." w = false) segments
     ∧ PyStr.join "." segments = service_name
     ∧ ∀ ws, ws ≠ [] → Forall (λ w, PyStr.has_char "." w = false) ws →
             PyStr.join "." ws = service_name → ws = segments)
    ∧ path_obj !! "tags" = Some (JList [JStr (PyStr.join "/" (drop 3 segments))])
    ∧ (length segments < 4 → path_obj !! "tags" = Some (JList [JStr ""]))
    ∧ tags_from_service_name "com.vmware.vcenter.VM" = ["VM"]
    ∧ tags_from_service_name "com.vmware.a.b.c" = ["b/c"].
Proof.
  intros service_name method path documentation parameters operation_id
    responses consumes produces segments path_obj.
  split; [|split; [apply build_path_tags|split; [|done]]].
  - split; [apply split_not_nil|]. split; [apply split_no_sep|].
    split; [apply join_split|]. intros ws Hne Hws <-. symmetry.
    by apply split_join.
  - intros Hlen. unfold path_obj. rewrite build_path_tags.
    unfold tags_from_service_name. fold segments.
    by rewrite drop_ge by lia.
Qed.

(** ** Request-body extraction *)

Lemma request_body_ref_entry ref e :
  request_body_entry ref e → request_body_ref e = Ok (Some ref).
Proof.
  intros (d & rest & -> & Hd & Hr). simpl. rewrite Hd.
  by rewrite (proj2 (startswith_spec ref REQUEST_BODIES_PREFIX)) by eauto.
Qed.

Lemma request_body_ref_plain e : plain_entry e → request_body_ref e = Ok None.
Proof.
  intros (d & -> & [Hd|(r & Hd & Hr)]); simpl; rewrite Hd; [done|].
  destruct (PyStr.startswith r REQUEST_BODIES_PREFIX) eqn:E; [|done].
  apply startswith_spec in E as [rest E]. by destruct (Hr rest).
Qed.

Lemma first_request_body_found before entry after ref i :
  Forall plain_entry before → request_body_entry ref entry →
  first_request_body (before ++ entry :: after) i
  = Ok (Some (i + length before, ref)).
Proof.
  intros Hb He. revert i. induction Hb as [|e before Hp _ IH]; intros i; simpl.
  - rewrite (request_body_ref_entry _ _ He). simpl. by rewrite Nat.add_0_r.
  - rewrite (request_body_ref_plain _ Hp). simpl. rewrite IH. do 3 f_equal. lia.
Qed.

Lemma first_request_body_none l i :
  Forall plain_entry l → first_request_body l i = Ok None.
Proof.
  intros Hl. revert i. induction Hl as [|e l Hp _ IH]; intros i; simpl; [done|].
  rewrite (request_body_ref_plain _ Hp). apply IH.
Qed.

Lemma delete_middle {A} (before after : list A) x :
  delete (length before) (before ++ x :: after) = before ++ after.
Proof. induction before as [|y before IH]; [done|]. simpl. by rewrite <-IH. Qed.

Lemma truthy_list_app before entry after : truthy (JList (before ++ entry :: after)) = true.
Proof. simpl. case_decide as H; [|done]. by destruct before. Qed.

(** C10.  Without a ['parameters'] key, as in what [build_path] gives for no
    parameters, the call raises [KeyError].  With the key, the first entry
    that refers to a request body leaves the list and becomes the
    [requestBody] of the path object, whatever comes after it; with no such
    entry the path object stays as it is. *)
Theorem create_req_body_first_only :
  ∀ path_obj : gmap string json,
    (path_obj !! "parameters" = None →
     create_req_body_from_params_list path_obj = Raise KeyError)
    ∧ (∀ service_name method path documentation operation_id responses
         consumes produces,
         create_req_body_from_params_list
           (build_path service_name method path documentation JNull
              operation_id responses consumes produces) = Raise KeyError)
    ∧ (∀ before entry after ref,
         path_obj !! "parameters" = Some (JList (before ++ entry :: after)) →
         Forall plain_entry before → request_body_entry ref entry →
         create_req_body_from_params_list path_obj
         = Ok (<["parameters" := JList (before ++ after)]>
                 (<["requestBody" := JObj {["$ref" := JStr ref]}]> path_obj)))
    ∧ (∀ l, path_obj !! "parameters" = Some (JList l) → Forall plain_entry l →
         create_req_body_from_params_list path_obj = Ok path_obj).
Proof.
  intros path_obj. split_and!.
  - intros H. unfold create_req_body_from_params_list. by rewrite H.
  - intros. unfold create_req_body_from_params_list, build_path.
    rewrite !lookup_set_if_not_none_ne by done. simpl.
    rewrite !lookup_set_if_not_none_ne by done. by rewrite lookup_insert_ne.
  - intros before entry after ref H Hb He.
    unfold create_req_body_from_params_list. rewrite H, truthy_list_app.
    rewrite (first_request_body_found _ _ _ _ 0 Hb He). simpl.
    by rewrite delete_middle.
  - intros l H Hl. unfold create_req_body_from_params_list. rewrite H.
    destruct (truthy (JList l)); [|done]. by rewrite first_request_body_none.
Qed.

(** Two references to request bodies: only the first one is taken. *)
Lemma create_req_body_first_only_example :
  let body (n : string) : json :=
    JObj {[ "$ref" := JStr ("#/components/requestBodies/" +:+ n) ]} in
  let query : json := JObj {[ "name" := JStr "q"; "in" := JStr "query" ]} in
  create_req_body_from_params_list
    {[ "parameters" := JList [query; body "A"; body "B"] ]}
  = Ok (<["parameters" := JList [query; body "B"]]>
          (<["requestBody" := body "A"]>
             {[ "parameters" := JList [query; body "A"; body "B"] ]})).
Proof.
  intros body query.
  apply (proj1 (proj2 (proj2 (create_req_body_first_only _)))
           [query] (body "A") [body "B"] "#/components/requestBodies/A").
  - done.
  - repeat constructor. eexists. split; [done|]. left. done.
  - eexists _, "A". done.
Defined.

(** ** Error codes *)

Lemma scan_structure_lacks st structure s :
  lacks_annotation s →
  scan_structure st (structure, s) = Ok (st.1, st.2 ++ [missing_message structure]).
Proof.
  destruct st as [m out]. unfold scan_structure, read_error_code.
  intros [H|(response & H & Hc)]; rewrite H; [done|]. by rewrite Hc.
Qed.

Lemma scan_structure_malformed st structure s text :
  has_code_text text s → PyInt.parse text = None →
  scan_structure st (structure, s) = Raise ValueError.
Proof.
  destruct st as [m out]. intros (response & v & H & Hc & <-) Hp.
  unfold scan_structure, read_error_code, PyInt.int. by rewrite H, Hc, Hp.
Qed.

Lemma scan_structure_code st structure s text n :
  has_code_text text s → PyInt.parse text = Some n →
  scan_structure st (structure, s) = Ok (<[structure := n]> st.1, st.2).
Proof.
  destruct st as [m out]. intros (response & v & H & Hc & <-) Hp.
  unfold scan_structure, read_error_code, PyInt.int. by rewrite H, Hc, Hp.
Qed.

(** The only exception that leaves an iteration is [ValueError]. *)
Lemma scan_structure_raises st entry e :
  scan_structure st entry = Raise e → e = ValueError.
Proof.
  destruct st as [m out], entry as [structure s].
  unfold scan_structure, read_error_code, PyInt.int.
  destruct (structure_metadata s !! "Response") as [[response|]|]; [|done..].
  destruct (elements response !! "code") as [v|]; [|done].
  destruct (PyInt.parse (string_value v)); simpl; congruence.
Qed.

Lemma scan_structures_malformed st entries structure s text :
  (structure, s) ∈ entries → has_code_text text s → PyInt.parse text = None →
  scan_structures st entries = Raise ValueError.
Proof.
  intros Hin Hs Hp. revert st.
  induction entries as [|entry entries IH]; intros st; [by apply elem_of_nil in Hin|].
  simpl. apply elem_of_cons in Hin as [<-|Hin].
  - by rewrite (scan_structure_malformed st structure s text).
  - destruct (scan_structure st entry) as [st'|e] eqn:E; simpl; [by apply IH|].
    by rewrite (scan_structure_raises _ _ _ E).
Qed.

(** Structures without the annotation leave the map as it was. *)
Lemma scan_structures_lacking st entries :
  Forall (λ entry, lacks_annotation entry.2) entries →
  scan_structures st entries
  = Ok (st.1, st.2 ++ (missing_message <$> entries.*1)).
Proof.
  intros Hall. revert st.
  induction Hall as [|[structure s] entries Hs _ IH]; intros st; simpl.
  - rewrite app_nil_r. by destruct st.
  - rewrite (scan_structure_lacks st structure s Hs). simpl. rewrite IH. simpl.
    by rewrite <-(assoc_L (++)).
Qed.

(** C4, as the code has it.  A structure without the [Response] annotation or
    without its [code] element is skipped: the [KeyError] is caught, a message
    is printed and the map stays as it was.  A code that is not an integer
    literal makes [int] raise [ValueError], which the handler does not catch:
    it leaves the constructor. *)
Theorem HttpErrorMap_malformed_code_raises :
  ∀ (svc : gmap string ComponentData) component package,
    svc !! "com.vmware.vapi" = Some component →
    packages (info component) !! "com.vmware.vapi.std.errors" = Some package →
    (∀ structure s text,
       (structure, s) ∈ structures package →
       has_code_text text s → PyInt.parse text = None →
       HttpErrorMap_init svc = Raise ValueError)
    ∧ (Forall (λ entry, lacks_annotation entry.2) (structures package) →
       ∃ m, HttpErrorMap_init svc = Ok m
            ∧ error_api_map m = ∅
            ∧ stdout m = missing_message <$> (structures package).*1)
    ∧ (∀ st structure s, lacks_annotation s →
         scan_structure st (structure, s)
         = Ok (st.1, st.2 ++ [missing_message structure]))
    ∧ (∀ st structure s text, has_code_text text s → PyInt.parse text = None →
         scan_structure st (structure, s) = Raise ValueError).
Proof.
  intros svc component package Hc Hp. unfold HttpErrorMap_init. rewrite Hc, Hp.
  split_and!.
  - intros structure s text Hin Hs Htext.
    by rewrite (scan_structures_malformed _ _ structure s text).
  - intros Hall. rewrite (scan_structures_lacking _ _ Hall). simpl. eauto.
  - apply scan_structure_lacks.
  - apply scan_structure_malformed.
Qed.

(** C4 as stated fails: with the code text ["abc"] the constructor raises
    [ValueError]; with no annotation it returns, having skipped the
    structure. *)
Lemma HttpErrorMap_malformed_not_skipped :
  HttpErrorMap_init
    (error_examples.with_structures
       [(error_examples.not_found, error_examples.response "abc")])
  = Raise ValueError
  ∧ ∃ m, HttpErrorMap_init
           (error_examples.with_structures
              [(error_examples.not_found, error_examples.no_response)]) = Ok m
         ∧ error_api_map m = ∅
         ∧ stdout m = [missing_message error_examples.not_found].
Proof.
  split; [by vm_compute|].
  exists {| component_svc :=
              error_examples.with_structures
                [(error_examples.not_found, error_examples.no_response)];
            error_api_map := ∅;
            error_rest_map := default_error_rest_map;
            stdout := [missing_message error_examples.not_found] |}.
  split; [|split; reflexivity]. unfold HttpErrorMap_init.
  change (error_examples.with_structures ?l !! "com.vmware.vapi")
    with (Some (error_examples.component l)).
  cbv beta iota.
  change (packages (info (error_examples.component ?l)) !! "com.vmware.vapi.std.errors")
    with (Some (error_examples.package l)).
  reflexivity.
Qed.

(** A structure without annotation, then one with the code text ["4o4"]. *)
Lemma HttpErrorMap_malformed_code_raises_example :
  HttpErrorMap_init (error_examples.with_structures error_examples.declared)
  = Raise ValueError.
Proof.
  apply (proj1 (HttpErrorMap_malformed_code_raises
                  (error_examples.with_structures error_examples.declared)
                  (error_examples.component error_examples.declared)
                  (error_examples.package error_examples.declared)
                  eq_refl eq_refl)
           "com.vmware.vapi.std.errors.error" (error_examples.response "4o4") "4o4").
  - apply list_elem_of_further, list_elem_of_here.
  - by eexists _, _.
  - reflexivity.
Defined.

(** What [int] accepts: a no-break space and blanks around the text are
    dropped, a file separator is not; a sign stands directly before the
    digits; underscores stand between digits, one at a time. *)
Remark int_literals :
  PyInt.int (String (ascii_of_nat 160%nat) " 404 ") = Ok 404%Z
  ∧ PyInt.int (String (ascii_of_nat 28%nat) "404") = Raise ValueError
  ∧ PyInt.int "-404" = Ok (-404)%Z
  ∧ PyInt.int "+ 404" = Raise ValueError
  ∧ PyInt.int "4_0_4" = Ok 404%Z
  ∧ PyInt.int "4__04" = Raise ValueError
  ∧ PyInt.int "404_" = Raise ValueError
  ∧ PyInt.int "" = Raise ValueError.
Proof. repeat split; reflexivity. Qed.

(** ** Path reconciliation *)

Section classifier.
Implicit Types (param p q : FieldInfo) (placeholder url : string)
  (params before after : list FieldInfo) (st : Extraction).

Lemma is_param_path_variable_matches placeholder param :
  matches placeholder param → is_param_path_variable param placeholder = Ok true.
Proof.
  unfold is_param_path_variable. intros [Hn|(m & v & Hm & Hv & Hs)].
  - by rewrite decide_True.
  - case_decide; [done|]. rewrite Hm, Hv. by rewrite decide_True.
Qed.

Lemma is_param_path_variable_differs placeholder param :
  differs placeholder param → is_param_path_variable param placeholder = Ok false.
Proof.
  unfold is_param_path_variable. intros [Hn [Hm|(value & (m & v & Hm & Hv & Hs) & Hne)]].
  - by rewrite decide_False, Hm.
  - rewrite decide_False, Hm, Hv by done. rewrite decide_False; congruence.
Qed.

Lemma is_param_path_variable_true placeholder param :
  is_param_path_variable param placeholder = Ok true → matches placeholder param.
Proof.
  unfold is_param_path_variable. case_decide as Hn; [by left|].
  destruct (metadata param !! "PathVariable") as [[m|]|] eqn:Hm; [|done..].
  destruct (elements m !! "value") as [v|] eqn:Hv; [|done].
  case_decide as Hs; [|done]. intros _. right. by exists m, v.
Qed.

Lemma is_param_path_variable_false placeholder param :
  is_param_path_variable param placeholder = Ok false → differs placeholder param.
Proof.
  unfold is_param_path_variable. case_decide as Hn; [done|].
  destruct (metadata param !! "PathVariable") as [[m|]|] eqn:Hm; [|done|].
  - destruct (elements m !! "value") as [v|] eqn:Hv; [|done].
    case_decide as Hs; [done|]. intros _. split; [done|]. right.
    exists (string_value v). split; [|done]. by exists m, v.
  - intros _. split; [done|]. by left.
Qed.

Lemma is_param_path_variable_total placeholder param :
  well_tagged param → ∃ b, is_param_path_variable param placeholder = Ok b.
Proof.
  unfold is_param_path_variable. case_decide; [by eexists|].
  intros [Hm|(value & m & v & Hm & Hv & _)]; rewrite Hm; [by eexists|].
  rewrite Hv. by eexists.
Qed.

Lemma matches_differs placeholder param :
  matches placeholder param → differs placeholder param → False.
Proof.
  intros Hm%is_param_path_variable_matches Hd%is_param_path_variable_differs.
  congruence.
Qed.

(** The inner loop stops at the first parameter that matches. *)
Lemma find_path_param_first before p after placeholder url :
  Forall (differs placeholder) before → matches placeholder p →
  find_path_param (before ++ p :: after) placeholder url
  = Ok (Some p, rewritten placeholder p url).
Proof.
  intros Hb Hp. induction Hb as [|q before Hq _ IH]; simpl.
  - rewrite (is_param_path_variable_matches _ _ Hp). simpl. unfold rewritten.
    do 2 f_equal. repeat case_decide; done.
  - by rewrite (is_param_path_variable_differs _ _ Hq).
Qed.

Lemma find_path_param_none params placeholder url :
  Forall (differs placeholder) params →
  find_path_param params placeholder url = Ok (None, url).
Proof.
  intros Hall. induction Hall as [|q params Hq _ IH]; simpl; [done|].
  by rewrite (is_param_path_variable_differs _ _ Hq).
Qed.

(** Conversely, what the inner loop returns is the first match. *)
Lemma find_path_param_Some params placeholder url p url' :
  find_path_param params placeholder url = Ok (Some p, url') →
  ∃ before after, params = before ++ p :: after
                  ∧ Forall (differs placeholder) before
                  ∧ matches placeholder p
                  ∧ url' = rewritten placeholder p url.
Proof.
  induction params as [|q params IH]; simpl; [done|].
  destruct (is_param_path_variable q placeholder) as [[]|] eqn:E; simpl; [| |done].
  - intros [= -> <-]. exists [], params. split; [done|]. split; [done|].
    split; [by apply is_param_path_variable_true|].
    unfold rewritten. repeat case_decide; done.
  - intros (before & after & -> & Hb & Hp & Hu)%IH.
    exists (q :: before), after. split; [done|]. split; [|done].
    constructor; [by apply is_param_path_variable_false|done].
Qed.

Lemma find_path_param_None params placeholder url url' :
  find_path_param params placeholder url = Ok (None, url') →
  Forall (differs placeholder) params ∧ url' = url.
Proof.
  induction params as [|q params IH]; simpl; [by intros [= <-]|].
  destruct (is_param_path_variable q placeholder) as [[]|] eqn:E; simpl; [done| |done].
  intros [Hall Hu]%IH. split; [|done].
  constructor; [by apply is_param_path_variable_false|done].
Qed.

Lemma list_remove_middle before p after :
  p ∉ before → list_remove p (before ++ p :: after) = Ok (before ++ after).
Proof.
  induction before as [|q before IH]; simpl; intros Hp.
  - by rewrite decide_True.
  - apply not_elem_of_cons in Hp as [Hne Hp]. rewrite decide_False by done.
    by rewrite IH.
Qed.

Lemma differs_not_elem placeholder p before :
  Forall (differs placeholder) before → matches placeholder p → p ∉ before.
Proof.
  intros Hb Hp Hin. rewrite Forall_forall in Hb.
  eauto using matches_differs.
Qed.

(** One placeholder with a match among the remaining parameters *)
Lemma extract_step_match url st placeholder before p after :
  other_params st = before ++ p :: after →
  Forall (differs placeholder) before → matches placeholder p →
  extract_step url st placeholder
  = Ok {| path_params := path_params st ++ [p];
          other_params := before ++ after;
          new_url := rewritten placeholder p (new_url st);
          stderr := stderr st |}.
Proof.
  intros Ho Hb Hp. unfold extract_step.
  rewrite Ho, (find_path_param_first _ _ _ _ _ Hb Hp). simpl.
  rewrite list_remove_middle by eauto using differs_not_elem. done.
Qed.

(** One placeholder that no remaining parameter matches *)
Lemma extract_step_no_match url st placeholder :
  Forall (differs placeholder) (other_params st) →
  extract_step url st placeholder
  = Ok {| path_params := path_params st;
          other_params := other_params st;
          new_url := new_url st;
          stderr := stderr st ++ [not_found_message placeholder url] |}.
Proof.
  intros Hall. unfold extract_step. by rewrite (find_path_param_none _ _ _ Hall).
Qed.

(** A step that returns took one of these two ways. *)
Lemma extract_step_inv url st placeholder st' :
  extract_step url st placeholder = Ok st' →
  (∃ before p after,
      other_params st = before ++ p :: after
      ∧ Forall (differs placeholder) before ∧ matches placeholder p
      ∧ st' = {| path_params := path_params st ++ [p];
                 other_params := before ++ after;
                 new_url := rewritten placeholder p (new_url st);
                 stderr := stderr st |})
  ∨ (Forall (differs placeholder) (other_params st)
     ∧ st' = {| path_params := path_params st;
                other_params := other_params st;
                new_url := new_url st;
                stderr := stderr st ++ [not_found_message placeholder url] |}).
Proof.
  intros Hstep. pose proof Hstep as Hstep'. unfold extract_step in Hstep.
  destruct (find_path_param _ _ _) as [[[p|] url']|] eqn:E; simpl in Hstep; [| |done].
  - apply find_path_param_Some in E as (before & after & Ho & Hb & Hp & ->).
    left. exists before, p, after. split_and!; [done..|].
    rewrite (extract_step_match url st placeholder before p after) in Hstep' by done.
    congruence.
  - apply find_path_param_None in E as [Hall ->]. right. split; [done|].
    rewrite extract_step_no_match in Hstep' by done. congruence.
Qed.

Lemma extract_step_total url st placeholder :
  Forall well_tagged (other_params st) →
  ∃ st', extract_step url st placeholder = Ok st'.
Proof.
  intros Hall.
  assert (Forall (differs placeholder) (other_params st)
          ∨ ∃ before p after, other_params st = before ++ p :: after
              ∧ Forall (differs placeholder) before ∧ matches placeholder p)
    as [Hno|(before & p & after & Ho & Hb & Hp)].
  { induction Hall as [|q params Hq _ IH]; [by left|].
    destruct (is_param_path_variable_total placeholder q Hq) as [[] E].
    - right. exists [], q, params. split; [done|]. split; [done|].
      by apply is_param_path_variable_true.
    - apply is_param_path_variable_false in E.
      destruct IH as [Hno|(before & p & after & -> & Hb & Hp)].
      + left. by constructor.
      + right. exists (q :: before), p, after. split; [done|]. split; [|done].
        by constructor. }
  - rewrite extract_step_no_match by done. eauto.
  - erewrite extract_step_match by done. eauto.
Qed.

End classifier.

(** ** The two groups *)

Section partition.
Implicit Types (url : string) (st : Extraction) (params : list FieldInfo).

Lemma extract_step_partition url st placeholder st' :
  extract_step url st placeholder = Ok st' →
  path_params st' ++ other_params st' ≡ₚ path_params st ++ other_params st
  ∧ other_params st' `sublist_of` other_params st.
Proof.
  intros [(before & p & after & Ho & _ & _ & ->)|(_ & ->)]%extract_step_inv;
    simpl; [|done].
  rewrite Ho. split.
  - rewrite <-(assoc_L (++)). f_equiv. simpl. apply Permutation_middle.
  - apply sublist_app; [done|]. by apply sublist_cons.
Qed.

Lemma extract_loop_partition url st matches st' :
  extract_loop url st matches = Ok st' →
  path_params st' ++ other_params st' ≡ₚ path_params st ++ other_params st
  ∧ other_params st' `sublist_of` other_params st.
Proof.
  revert st. induction matches as [|placeholder matches IH]; intros st; simpl.
  - by intros [= ->].
  - destruct (extract_step url st placeholder) as [st1|] eqn:E; simpl; [|done].
    intros [Hp Hs]%IH. apply extract_step_partition in E as [Hp1 Hs1].
    split; [by rewrite Hp|by etrans].
Qed.

Lemma extract_loop_total url st matches :
  Forall well_tagged (other_params st) →
  ∃ st', extract_loop url st matches = Ok st'.
Proof.
  revert st. induction matches as [|placeholder matches IH]; intros st Hall; simpl.
  - by eexists.
  - destruct (extract_step_total url st placeholder Hall) as [st1 E].
    rewrite E. simpl. apply IH.
    apply extract_step_partition in E as [_ Hs].
    rewrite Forall_forall in Hall |- *. intros p Hp. apply Hall.
    by apply (sublist_subseteq _ _ Hs).
Qed.

(** The classifier returns whenever every [PathVariable] tag carries its
    [value] element. *)
Lemma extract_path_parameters_total params url :
  Forall well_tagged params → ∃ st, extract_path_parameters params url = Ok st.
Proof. intros Hall. by apply extract_loop_total. Qed.

End partition.

(** C3, as the code has it.  The path group and the other group split the
    parameter list: put together they are the list [params] up to order, so
    every occurrence of a parameter is in exactly one of them and nothing
    else is; the other group keeps the order of [params]; and the two groups
    have no parameter in common when [params] holds none twice. *)
Theorem extract_path_parameters_partition :
  ∀ params url st,
    extract_path_parameters params url = Ok st →
    path_params st ++ other_params st ≡ₚ params
    ∧ (∀ p, p ∈ params ↔ p ∈ path_params st ∨ p ∈ other_params st)
    ∧ (NoDup params → ∀ p, p ∈ path_params st → p ∉ other_params st)
    ∧ other_params st `sublist_of` params.
Proof.
  intros params url st [Hperm Hsub]%extract_loop_partition. simpl in *.
  split; [done|]. split; [|split; [|done]].
  - intros p. by rewrite <-Hperm, elem_of_app.
  - intros Hnd p Hp Ho. rewrite <-Hperm in Hnd.
    apply NoDup_app in Hnd as (_ & Hdisj & _). by apply (Hdisj p).
Qed.

(** ** Placeholders and replacement *)

Section has_char.
Implicit Types (s t : string) (c d : ascii).

Lemma has_char_cons c d s :
  PyStr.has_char c (String d s) = if decide (c = d) then true else PyStr.has_char c s.
Proof. reflexivity. Qed.

Lemma has_char_app c s t :
  PyStr.has_char c (s +:+ t) = PyStr.has_char c s || PyStr.has_char c t.
Proof.
  induction s as [|d s IH]; [done|].
  rewrite str_app_cons, !has_char_cons. by case_decide.
Qed.

Lemma has_char_cons_false c d s :
  PyStr.has_char c (String d s) = false ↔ c ≠ d ∧ PyStr.has_char c s = false.
Proof. rewrite has_char_cons. destruct (decide (c = d)); intuition congruence. Qed.

(** Two strings that are cut at their first [c] are cut at the same place. *)
Lemma app_char_inj c s1 s2 t1 t2 :
  PyStr.has_char c s1 = false → PyStr.has_char c s2 = false →
  s1 +:+ String c t1 = s2 +:+ String c t2 → s1 = s2 ∧ t1 = t2.
Proof.
  revert s2. induction s1 as [|d s1 IH]; intros [|e s2];
    rewrite ?str_app_nil_l, ?str_app_cons, ?has_char_cons_false.
  - by intros _ _ [= ->].
  - intros _ [? _] [= ? _]. congruence.
  - intros [? _] _ [= ? _]. congruence.
  - intros [_ H1] [_ H2] [= -> H]. destruct (IH _ H1 H2 H) as [-> ->]. done.
Qed.


End has_char.

Section regex.
Implicit Types (s g r t : string) (c : ascii).

Lemma lazy_rest_cons c s :
  re_path_param.lazy_rest (String c s)
  = if decide (c = "}"%char) then Some ""
    else if decide (c = PyStr.newline) then None
    else String c <$> re_path_param.lazy_rest s.
Proof. reflexivity. Qed.

Lemma match_group_cons c s :
  re_path_param.match_group (String c s)
  = if decide (c = PyStr.newline) then None
    else String c <$> re_path_param.lazy_rest s.
Proof. reflexivity. Qed.

Lemma lazy_rest_close g r :
  PyStr.has_char "}" g = false → PyStr.has_char PyStr.newline g = false →
  re_path_param.lazy_rest (g +:+ String "}" r) = Some g.
Proof.
  induction g as [|c g IH]; [done|].
  intros [? Hb]%has_char_cons_false [? Hn]%has_char_cons_false.
  rewrite str_app_cons, lazy_rest_cons, !decide_False, IH by done. done.
Qed.

(** With no newline before it, a closing brace ends the match somewhere. *)
Lemma lazy_rest_is_Some g r :
  PyStr.has_char PyStr.newline g = false →
  is_Some (re_path_param.lazy_rest (g +:+ String "}" r)).
Proof.
  induction g as [|c g IH]; [by eexists|].
  intros [? Hn]%has_char_cons_false. rewrite str_app_cons, lazy_rest_cons.
  case_decide; [by eexists|]. rewrite decide_False by done.
  destruct (IH Hn) as [x ->]. by eexists.
Qed.

Lemma lazy_rest_Some s g :
  re_path_param.lazy_rest s = Some g → ∃ r, s = g +:+ String "}" r.
Proof.
  revert g. induction s as [|c s IH]; intros g; [done|].
  rewrite lazy_rest_cons. case_decide as Hc; [intros [= <-]; subst c; by exists s|].
  case_decide; [done|].
  destruct (re_path_param.lazy_rest s) as [g'|]; [|done]. intros [= <-].
  destruct (IH g' eq_refl) as [r ->]. by exists r.
Qed.

Lemma match_group_plain g r :
  plain g → re_path_param.match_group (g +:+ String "}" r) = Some g.
Proof.
  intros (Hne & _ & Hb & Hn). destruct g as [|c g]; [done|].
  apply has_char_cons_false in Hb as [_ Hb].
  apply has_char_cons_false in Hn as [? Hn].
  rewrite str_app_cons, match_group_cons, decide_False by done.
  by rewrite lazy_rest_close.
Qed.

Lemma match_group_is_Some g r :
  g ≠ "" → PyStr.has_char PyStr.newline g = false →
  is_Some (re_path_param.match_group (g +:+ String "}" r)).
Proof.
  intros Hne Hn. destruct g as [|c g]; [done|].
  apply has_char_cons_false in Hn as [? Hn].
  rewrite str_app_cons, match_group_cons, decide_False by done.
  destruct (lazy_rest_is_Some g r Hn) as [x ->]. by eexists.
Qed.

Lemma match_group_Some s g :
  re_path_param.match_group s = Some g → ∃ r, s = g +:+ String "}" r.
Proof.
  destruct s as [|c s]; [done|]. rewrite match_group_cons.
  case_decide; [done|].
  destruct (re_path_param.lazy_rest s) as [g'|] eqn:E; [|done]. intros [= <-].
  destruct (lazy_rest_Some _ _ E) as [r ->]. by exists r.
Qed.

Lemma finditer_go_skip g s :
  re_path_param.finditer_go (String.length g) (g +:+ s) = re_path_param.finditer_go 0 s.
Proof. induction g as [|c g IH]; [done|]. by rewrite str_app_cons. Qed.

Lemma finditer_other c s :
  c ≠ "{"%char → re_path_param.finditer (String c s) = re_path_param.finditer s.
Proof. intros Hc. unfold re_path_param.finditer. simpl. by rewrite decide_False. Qed.

Lemma finditer_no_match s :
  re_path_param.match_group s = None →
  re_path_param.finditer (String "{" s) = re_path_param.finditer s.
Proof. intros H. unfold re_path_param.finditer. simpl. by rewrite H. Qed.

Lemma finditer_match s g :
  re_path_param.match_group s = Some g →
  ∃ r, s = g +:+ String "}" r
       ∧ re_path_param.finditer (String "{" s) = g :: re_path_param.finditer r.
Proof.
  intros H. destruct (match_group_Some _ _ H) as [r ->]. exists r.
  split; [done|]. unfold re_path_param.finditer. simpl. rewrite H. f_equal.
  change (String "}" r) with ("}" +:+ r). rewrite <-str_app_assoc.
  replace (S (String.length g)) with (String.length (g +:+ "}"))
    by (rewrite str_length_app; simpl; lia).
  apply finditer_go_skip.
Qed.

(** The scan passes what has no opening brace, and takes a placeholder
    where it stands. *)
Lemma finditer_skip s r :
  PyStr.has_char "{" s = false →
  re_path_param.finditer (s +:+ r) = re_path_param.finditer r.
Proof.
  induction s as [|c s IH]; [done|]. intros [? Hs]%has_char_cons_false.
  rewrite str_app_cons, finditer_other by done. by apply IH.
Qed.

Lemma finditer_placeholder g r :
  plain g →
  re_path_param.finditer (String "{" (g +:+ String "}" r)) = g :: re_path_param.finditer r.
Proof.
  intros Hg.
  destruct (finditer_match _ _ (match_group_plain g r Hg)) as (r' & E & ->).
  destruct Hg as (_ & _ & Hb & _).
  by destruct (app_char_inj _ _ _ _ _ Hb Hb E) as [_ <-].
Qed.

Lemma braced_app g r : braced g +:+ r = String "{" (g +:+ String "}" r).
Proof. by rewrite str_app_cons, str_app_assoc, str_app_char. Qed.

Lemma finditer_braced g r :
  plain g → re_path_param.finditer (braced g +:+ r) = g :: re_path_param.finditer r.
Proof. intros Hg. rewrite braced_app. by apply finditer_placeholder. Qed.

End regex.

Section replace.
Variables (old_head : ascii) (old_tail new : string).
Abbreviation old := (String old_head old_tail).
Implicit Types (s x : string) (c : ascii).

Lemma replace_unfold s : PyStr.replace s old new = PyStr.replace_go old new 0 s.
Proof. reflexivity. Qed.

Lemma replace_go_skip x s :
  PyStr.replace_go old new (String.length x) (x +:+ s) = PyStr.replace_go old new 0 s.
Proof. induction x as [|c x IH]; [by destruct s|]. by rewrite str_app_cons. Qed.

(** An occurrence at the front is replaced, and the scan goes on behind
    it. *)
Lemma replace_occurrence s :
  PyStr.replace (old +:+ s) old new = new +:+ PyStr.replace s old new.
Proof.
  rewrite !replace_unfold, str_app_cons. simpl PyStr.replace_go.
  rewrite decide_True by done. rewrite startswith_app. f_equal.
  rewrite Nat.sub_0_r. apply replace_go_skip.
Qed.

(** A character where [old] does not start is kept. *)
Lemma replace_keep c s :
  PyStr.startswith (String c s) old = false →
  PyStr.replace (String c s) old new = String c (PyStr.replace s old new).
Proof. intros H. rewrite !replace_unfold. simpl PyStr.replace_go. simpl in H. by rewrite H. Qed.

Lemma replace_nil : PyStr.replace "" old new = "".
Proof. reflexivity. Qed.

Lemma replace_skip x s :
  PyStr.has_char old_head x = false →
  PyStr.replace (x +:+ s) old new = x +:+ PyStr.replace s old new.
Proof.
  induction x as [|c x IH]; [done|]. intros [Hc Hx]%has_char_cons_false.
  rewrite !str_app_cons, replace_keep, IH; [done..|].
  rewrite startswith_cons. by rewrite decide_False.
Qed.


End replace.

(** Replacing [{a}] by [{b}] renames the placeholders [a] of a URL and leaves
    the others as they are, when all of them are plain. *)
Section rename.
Variables a b : string.
Hypothesis plain_a : plain a.
Hypothesis plain_b : plain b.
Implicit Types (s g r : string) (c : ascii).

Lemma startswith_braced_head c s :
  PyStr.startswith (String c s) (braced a) = true → c = "{"%char.
Proof. rewrite startswith_cons. by case_decide. Qed.

Lemma startswith_braced s :
  PyStr.startswith (String "{" s) (braced a) = true ↔ ∃ r, s = a +:+ String "}" r.
Proof.
  rewrite startswith_spec. split; intros [r E]; exists r.
  - rewrite braced_app in E. by injection E.
  - by rewrite braced_app, E.
Qed.

Lemma startswith_braced_placeholder g r :
  PyStr.has_char "}" g = false →
  PyStr.startswith (String "{" (g +:+ String "}" r)) (braced a) = true → g = a.
Proof.
  intros Hg [r' E]%startswith_braced. destruct plain_a as (_ & _ & Ha & _).
  by destruct (app_char_inj _ _ _ _ _ Hg Ha E).
Qed.

Lemma replace_keep_no_match c s :
  re_path_param.match_group s = None →
  PyStr.replace (String c s) (braced a) (braced b)
  = String c (PyStr.replace s (braced a) (braced b)).
Proof.
  intros Hs. apply replace_keep.
  destruct (PyStr.startswith (String c s) (braced a)) eqn:E; [|done].
  pose proof (startswith_braced_head _ _ E) as ->.
  apply startswith_braced in E as [r ->]. destruct plain_a as (Hne & _ & _ & Hn).
  destruct (match_group_is_Some a r Hne Hn) as [x Hx]. congruence.
Qed.

Lemma lazy_rest_replace_None s :
  re_path_param.lazy_rest s = None →
  re_path_param.lazy_rest (PyStr.replace s (braced a) (braced b)) = None.
Proof.
  induction s as [|c s IH]; [done|]. rewrite lazy_rest_cons.
  case_decide as Hb; [done|]. case_decide as Hn.
  - intros _. rewrite replace_keep.
    + rewrite lazy_rest_cons, decide_False, decide_True; done.
    + destruct (PyStr.startswith (String c s) (braced a)) eqn:E; [|done].
      apply startswith_braced_head in E. by subst c.
  - destruct (re_path_param.lazy_rest s) as [x|] eqn:E; [done|]. intros _.
    rewrite replace_keep.
    + rewrite lazy_rest_cons, !decide_False, IH; done.
    + destruct (PyStr.startswith (String c s) (braced a)) eqn:E'; [|done].
      pose proof (startswith_braced_head _ _ E') as ->.
      apply startswith_braced in E' as [r ->].
      destruct plain_a as (_ & _ & _ & Ha).
      destruct (lazy_rest_is_Some a r Ha) as [y Hy]. congruence.
Qed.

Lemma match_group_replace_None s :
  re_path_param.match_group s = None →
  re_path_param.match_group (PyStr.replace s (braced a) (braced b)) = None.
Proof.
  destruct s as [|c s]; [done|]. intros Hs. pose proof Hs as Hs'.
  rewrite match_group_cons in Hs. case_decide as Hn.
  - rewrite replace_keep.
    + by rewrite match_group_cons, decide_True.
    + destruct (PyStr.startswith (String c s) (braced a)) eqn:E; [|done].
      apply startswith_braced_head in E. by subst c.
  - destruct (re_path_param.lazy_rest s) as [x|] eqn:E; [done|].
    rewrite replace_keep.
    + by rewrite match_group_cons, decide_False, lazy_rest_replace_None.
    + destruct (PyStr.startswith (String c s) (braced a)) eqn:E'; [|done].
      pose proof (startswith_braced_head _ _ E') as ->.
      apply startswith_braced in E' as [r ->].
      destruct plain_a as (_ & _ & _ & Ha).
      destruct (lazy_rest_is_Some a r Ha) as [y Hy]. congruence.
Qed.

Lemma finditer_replace s :
  Forall plain (re_path_param.finditer s) →
  re_path_param.finditer (PyStr.replace s (braced a) (braced b))
  = rename a b <$> re_path_param.finditer s.
Proof.
  remember (String.length s) as n eqn:Hn. revert s Hn.
  induction n as [n IH] using lt_wf_ind. intros s -> Hall.
  destruct s as [|c s]; [done|].
  destruct (decide (c = "{"%char)) as [->|Hc].
  - destruct (re_path_param.match_group s) as [g|] eqn:E.
    + destruct (finditer_match _ _ E) as (r & -> & Hf).
      rewrite Hf in Hall |- *. apply Forall_cons in Hall as [Hg Hr].
      assert (re_path_param.finditer (PyStr.replace r (braced a) (braced b))
              = rename a b <$> re_path_param.finditer r) as IHr.
      { apply (IH (String.length r)); [|done..].
        simpl. rewrite str_length_app. simpl. lia. }
      destruct (decide (g = a)) as [->|Hga].
      * rewrite <-braced_app, replace_occurrence, finditer_braced by done.
        rewrite fmap_cons, IHr. unfold rename at 2. by rewrite decide_True.
      * rewrite replace_keep.
        2:{ destruct (PyStr.startswith _ (braced a)) eqn:E'; [|done].
            destruct Hg as (_ & _ & Hg & _).
            by apply startswith_braced_placeholder in E'. }
        rewrite <-(str_app_char "}" r), <-str_app_assoc, replace_skip.
        2:{ destruct Hg as (_ & Hg & _ & _). by rewrite has_char_app, Hg. }
        rewrite str_app_assoc, str_app_char, finditer_placeholder by done.
        rewrite fmap_cons, IHr. unfold rename at 2. by rewrite decide_False.
    + rewrite replace_keep_no_match by done.
      rewrite finditer_no_match in Hall by done.
      rewrite (finditer_no_match s) by done.
      rewrite finditer_no_match by (by apply match_group_replace_None).
      apply (IH (String.length s)); [simpl; lia|done..].
  - rewrite finditer_other in Hall |- * by done.
    rewrite replace_keep.
    2:{ destruct (PyStr.startswith _ (braced a)) eqn:E'; [|done].
        by apply startswith_braced_head in E'. }
    rewrite finditer_other by done.
    apply (IH (String.length s)); [simpl; lia|done..].
Qed.


End rename.

(** ** What reconciliation does to the placeholders *)

Section placeholders.
Implicit Types (url t : string) (st : Extraction) (p : FieldInfo).

Lemma rename_same a t : rename a a t = t.
Proof. unfold rename. by case_decide. Qed.

Lemma rename_plain a b t : plain b → plain t → plain (rename a b t).
Proof. unfold rename. by case_decide. Qed.



Lemma finditer_rewritten placeholder p url :
  plain placeholder → plain (name p) → Forall plain (re_path_param.finditer url) →
  re_path_param.finditer (rewritten placeholder p url)
  = rename placeholder (name p) <$> re_path_param.finditer url.
Proof.
  intros Hph Hp Hall. unfold rewritten. case_decide as Hn.
  - rewrite Hn. clear. induction (re_path_param.finditer url) as [|t l IH]; [done|].
    by rewrite fmap_cons, rename_same, <-IH.
  - by apply (finditer_replace placeholder (name p)).
Qed.

Lemma plain_fmap_rename a b (l : list string) :
  plain b → Forall plain l → Forall plain (rename a b <$> l).
Proof.
  intros Hb Hl. apply Forall_fmap. eapply Forall_impl; [done|].
  intros t Ht. by apply rename_plain.
Qed.

Lemma extract_step_settled url st placeholder pending st' :
  extract_step url st placeholder = Ok st' →
  plain placeholder → placeholder ∈ re_path_param.finditer url →
  Forall (λ p, plain (name p)) (other_params st) →
  Forall plain (re_path_param.finditer (new_url st)) →
  Forall (settled url st (placeholder :: pending)) (re_path_param.finditer (new_url st)) →
  Forall (λ p, plain (name p)) (other_params st')
  ∧ Forall plain (re_path_param.finditer (new_url st'))
  ∧ Forall (settled url st' pending) (re_path_param.finditer (new_url st')).
Proof.
  intros Hstep Hph Hin Hnames Hplain Hall.
  pose proof (extract_step_partition _ _ _ _ Hstep) as [_ Hsub].
  assert (∀ t, Forall (differs t) (other_params st) →
               Forall (differs t) (other_params st')) as Hshrink.
  { intros t Ht. rewrite Forall_forall in Ht |- *. intros q Hq.
    by apply Ht, (sublist_subseteq _ _ Hsub). }
  split.
  { rewrite Forall_forall in Hnames |- *. intros q Hq.
    by apply Hnames, (sublist_subseteq _ _ Hsub). }
  apply extract_step_inv in Hstep
    as [(before & p & after & Ho & Hb & Hp & ->)|(Hno & ->)]; simpl in *.
  - assert (plain (name p)) as Hplain_p.
    { rewrite Forall_forall in Hnames. apply Hnames. rewrite Ho.
      apply elem_of_app. right. left. }
    rewrite finditer_rewritten by done. split; [by apply plain_fmap_rename|].
    apply Forall_fmap. eapply Forall_impl; [done|]. intros t Ht. simpl.
    unfold rename. case_decide as Et.
    + left. exists p. split; [|done]. apply elem_of_app. right. left.
    + destruct Ht as [(q & Hq & Hqn)|[(Hu & Hm & Hd)|Hpend]].
      * left. exists q. split; [|done]. apply elem_of_app. by left.
      * right. left. split_and!; [done..|]. by apply Hshrink.
      * right. right. by apply elem_of_cons in Hpend as [?|?].
  - split; [done|]. eapply Forall_impl; [done|]. intros t Ht. simpl.
    destruct Ht as [(q & Hq & Hqn)|[(Hu & Hm & Hd)|Hpend]].
    + left. by exists q.
    + right. left. split_and!; [done| |done]. apply elem_of_app. by left.
    + apply elem_of_cons in Hpend as [->|Hpend]; [|by right; right].
      right. left. split_and!; [done| |done]. apply elem_of_app. right. left.
Qed.

Lemma extract_loop_settled url st pending st' :
  extract_loop url st pending = Ok st' →
  Forall plain pending → pending ⊆ re_path_param.finditer url →
  Forall (λ p, plain (name p)) (other_params st) →
  Forall plain (re_path_param.finditer (new_url st)) →
  Forall (settled url st pending) (re_path_param.finditer (new_url st)) →
  Forall (settled url st' []) (re_path_param.finditer (new_url st')).
Proof.
  revert st. induction pending as [|placeholder pending IH]; intros st; simpl.
  - by intros [= ->].
  - destruct (extract_step url st placeholder) as [st1|] eqn:E; simpl; [|done].
    intros Hloop [Hph Hpl]%Forall_cons Hsub Hnames Hplain Hall.
    destruct (extract_step_settled _ _ _ pending _ E) as (? & ? & ?);
      [done| |done..|].
    { apply Hsub. left. }
    apply (IH st1); try done. intros t Ht. apply Hsub. by right.
Qed.

End placeholders.

(** C1, as the code has it.  When the placeholders of the URL and the names
    of the parameters are plain, every placeholder of the returned URL is the
    name of a parameter of the path group, or is a placeholder of the given
    URL that was reported because no parameter matched it; none of the
    parameters left in the other group matches such a placeholder. *)
Theorem extract_path_parameters_placeholders :
  ∀ params url st,
    extract_path_parameters params url = Ok st →
    Forall plain (re_path_param.finditer url) →
    Forall (λ p, plain (name p)) params →
    ∀ token, token ∈ re_path_param.finditer (new_url st) →
      (∃ p, p ∈ path_params st ∧ name p = token)
      ∨ (token ∈ re_path_param.finditer url
         ∧ not_found_message token url ∈ stderr st
         ∧ Forall (differs token) (other_params st)).
Proof.
  intros params url st Hrun Hplain Hnames token Htoken.
  apply extract_loop_settled in Hrun; simpl; try done.
  - rewrite Forall_forall in Hrun.
    destruct (Hrun token Htoken) as [?|[?|Hnil]]; [by left|by right|].
    by apply elem_of_nil in Hnil.
  - apply Forall_forall. intros t Ht. by right; right.
Qed.

(** C1 as stated fails: a placeholder that no parameter matches stays in the
    returned URL, and the path group has no parameter for it. *)
Lemma extract_path_parameters_unmatched_placeholder :
  ∃ st, extract_path_parameters [] "/vm/{vm}" = Ok st
        ∧ new_url st = "/vm/{vm}"
        ∧ "vm" ∈ re_path_param.finditer (new_url st)
        ∧ path_params st = [].
Proof. eexists. split; [by vm_compute|]. split_and!; [done|compute_done|done]. Qed.

(** Braces in a [PathVariable] value break the correspondence even when every
    placeholder finds its parameter. *)
Remark extract_path_parameters_brace_in_value :
  ∃ st, extract_path_parameters
          [path_examples.path_variable "y" "a"; path_examples.path_variable "x" "{a"]
          "{a}{{a}" = Ok st
        ∧ name <$> path_params st = ["y"; "x"]
        ∧ re_path_param.finditer (new_url st) = ["y"; "{y"]
        ∧ stderr st = [].
Proof. eexists. split; [by vm_compute|]. by vm_compute. Qed.

(** A URL with one placeholder that is matched and renamed and one that no
    parameter matches. *)
Lemma extract_path_parameters_placeholders_example :
  let st := {| path_params := [path_examples.resource_pool];
               other_params := [path_examples.untagged "filter"];
               new_url := "/vcenter/resource-pool/{resource_pool}/{id}";
               stderr := [not_found_message "id"
                            "/vcenter/resource-pool/{resource-pool}/{id}"] |} in
  ((∃ p, p ∈ path_params st ∧ name p = "resource_pool")
   ∨ ("resource_pool" ∈ re_path_param.finditer "/vcenter/resource-pool/{resource-pool}/{id}"
      ∧ not_found_message "resource_pool"
          "/vcenter/resource-pool/{resource-pool}/{id}" ∈ stderr st
      ∧ Forall (differs "resource_pool") (other_params st)))
  ∧ ((∃ p, p ∈ path_params st ∧ name p = "id")
     ∨ ("id" ∈ re_path_param.finditer "/vcenter/resource-pool/{resource-pool}/{id}"
        ∧ not_found_message "id"
            "/vcenter/resource-pool/{resource-pool}/{id}" ∈ stderr st
        ∧ Forall (differs "id") (other_params st))).
Proof.
  intros st.
  assert (extract_path_parameters
            [path_examples.untagged "filter"; path_examples.resource_pool]
            "/vcenter/resource-pool/{resource-pool}/{id}" = Ok st) as Hrun
    by (vm_compute; reflexivity).
  assert (Forall plain (re_path_param.finditer "/vcenter/resource-pool/{resource-pool}/{id}"))
    as Hplain by compute_done.
  assert (Forall (λ p, plain (name p))
            [path_examples.untagged "filter"; path_examples.resource_pool])
    as Hnames by (repeat constructor; compute_done).
  split.
  - apply (extract_path_parameters_placeholders _ _ st Hrun Hplain Hnames).
    compute_done.
  - apply (extract_path_parameters_placeholders _ _ st Hrun Hplain Hnames).
    compute_done.
Defined.

(** C2.  One iteration gives the placeholder to the first remaining parameter
    that matches it, by name or by [PathVariable] value: the parameter joins
    the path group and leaves the remaining ones, and the URL is rewritten
    when its name differs from the placeholder.  With no match the
    placeholder is reported and nothing else changes.  The iterations follow
    the placeholders of the URL from left to right.  The resource-pool URL
    becomes [/vcenter/resource-pool/{resource_pool}] with the path group
    [[resource_pool]]. *)
Theorem path_reconciliation_first_match :
  ∀ url st placeholder,
    (∀ before p after,
       other_params st = before ++ p :: after →
       Forall (differs placeholder) before → matches placeholder p →
       extract_step url st placeholder
       = Ok {| path_params := path_params st ++ [p];
               other_params := before ++ after;
               new_url := rewritten placeholder p (new_url st);
               stderr := stderr st |}
       ∧ (name p = placeholder → rewritten placeholder p (new_url st) = new_url st)
       ∧ (name p ≠ placeholder →
          rewritten placeholder p (new_url st)
          = PyStr.replace (new_url st) (braced placeholder) (braced (name p))))
    ∧ (Forall (differs placeholder) (other_params st) →
       extract_step url st placeholder
       = Ok {| path_params := path_params st;
               other_params := other_params st;
               new_url := new_url st;
               stderr := stderr st ++ [not_found_message placeholder url] |})
    ∧ (∀ rest,
         extract_loop url st (placeholder :: rest)
         = (st' ←! extract_step url st placeholder; extract_loop url st' rest))
    ∧ (∀ params,
         extract_path_parameters params url
         = extract_loop url
             {| path_params := []; other_params := params;
                new_url := url; stderr := [] |}
             (re_path_param.finditer url))
    ∧ (∀ lead rest,
         PyStr.has_char "{" lead = false → plain placeholder →
         re_path_param.finditer (lead +:+ braced placeholder +:+ rest)
         = placeholder :: re_path_param.finditer rest)
    ∧ extract_path_parameters [path_examples.resource_pool]
        "/vcenter/resource-pool/{resource-pool}"
      = Ok {| path_params := [path_examples.resource_pool];
              other_params := [];
              new_url := "/vcenter/resource-pool/{resource_pool}";
              stderr := [] |}.
Proof.
  intros url st placeholder. split_and!.
  - intros before p after Ho Hb Hp. split; [by apply extract_step_match|].
    unfold rewritten. split; intros Hn; [by rewrite decide_True|by rewrite decide_False].
  - apply extract_step_no_match.
  - done.
  - done.
  - intros lead rest Hlead Hph. rewrite finditer_skip by done.
    by apply finditer_braced.
  - by vm_compute.
Qed.

(** The resource-pool URL with a second parameter that stays in the other
    group. *)
Lemma extract_path_parameters_partition_example :
  let params := [path_examples.untagged "filter"; path_examples.resource_pool] in
  let st := {| path_params := [path_examples.resource_pool];
               other_params := [path_examples.untagged "filter"];
               new_url := "/vcenter/resource-pool/{resource_pool}";
               stderr := [] |} in
  path_params st ++ other_params st ≡ₚ params
  ∧ (∀ p, p ∈ params ↔ p ∈ path_params st ∨ p ∈ other_params st)
  ∧ (NoDup params → ∀ p, p ∈ path_params st → p ∉ other_params st)
  ∧ other_params st `sublist_of` params.
Proof.
  intros params st.
  apply (extract_path_parameters_partition params
           "/vcenter/resource-pool/{resource-pool}" st).
  vm_compute. reflexivity.
Defined.

(** C3 as stated fails for a list that holds a parameter twice: for the URL
    [/vm/{vm}] the first copy goes to the path group and the second one
    stays in the other group, so the parameter is in both. *)
Lemma extract_path_parameters_repeated_parameter :
  ∃ st,
    extract_path_parameters
      [path_examples.untagged "vm"; path_examples.untagged "vm"] "/vm/{vm}" = Ok st
    ∧ path_examples.untagged "vm" ∈ path_params st
    ∧ path_examples.untagged "vm" ∈ other_params st.
Proof.
  exists {| path_params := [path_examples.untagged "vm"];
            other_params := [path_examples.untagged "vm"];
            new_url := "/vm/{vm}";
            stderr := [] |}.
  split; [by vm_compute|]. split; apply list_elem_of_here.
Qed.

(** ** Rewriting a repeated placeholder *)





(** * Further properties *)

#[local] Set Warnings "-clear-no-such-hyp".

(** ** The stability filter *)

Lemma is_filtered_iff (metadata : gmap string (option ElementMap)) :
  is_filtered metadata = true
  ↔ ("TechPreview" ∉ dom metadata)
    ∧ ("Changing" ∈ dom metadata ∨ "Proposed" ∈ dom metadata).
Proof.
  unfold is_filtered. case_decide as Hsize.
  - apply map_size_empty_iff in Hsize as ->. rewrite dom_empty_L.
    split; [done|]. intros [_ [H|H]]; by apply not_elem_of_empty in H.
  - repeat case_decide; naive_solver.
Qed.

(** X1.  An element is filtered out exactly when it carries [Changing] or
    [Proposed] and not [TechPreview]; so [TechPreview] always keeps it, and
    no other tag has any effect. *)
Theorem is_filtered_by_tags :
  ∀ (metadata : gmap string (option ElementMap)) tag payload,
    (is_filtered metadata = true
     ↔ ("TechPreview" ∉ dom metadata)
       ∧ ("Changing" ∈ dom metadata ∨ "Proposed" ∈ dom metadata))
    ∧ is_filtered (<["TechPreview" := payload]> metadata) = false
    ∧ (tag ∉ ["TechPreview"; "Changing"; "Proposed"] →
       is_filtered (<[tag := payload]> metadata) = is_filtered metadata
       ∧ is_filtered (delete tag metadata) = is_filtered metadata).
Proof.
  intros metadata tag payload. split; [apply is_filtered_iff|]. split.
  - apply not_true_is_false. rewrite is_filtered_iff, dom_insert_L.
    intros [H _]. apply H. set_solver.
  - intros Htag. rewrite !not_elem_of_cons in Htag. destruct Htag as (? & ? & ? & _).
    assert (∀ m1 m2 : gmap string (option ElementMap),
              (∀ t, t ∈ ["TechPreview"; "Changing"; "Proposed"] →
                    t ∈ dom m1 ↔ t ∈ dom m2) →
              is_filtered m1 = is_filtered m2) as Hsame.
    { intros m1 m2 Hdom.
      destruct (is_filtered m1) eqn:E1, (is_filtered m2) eqn:E2; try done.
      - apply is_filtered_iff in E1. apply not_true_iff_false in E2.
        destruct E2. apply is_filtered_iff.
        rewrite <-!Hdom by (rewrite !elem_of_cons; tauto). done.
      - apply is_filtered_iff in E2. apply not_true_iff_false in E1.
        destruct E1. apply is_filtered_iff.
        rewrite !Hdom by (rewrite !elem_of_cons; tauto). done. }
    split; apply Hsame; intros t Ht; rewrite !elem_of_cons in Ht.
    + rewrite dom_insert_L. set_solver.
    + rewrite dom_delete_L. set_solver.
Qed.

(** ** Body and query parameters *)

Lemma extract_body_loop_filter params body_params other_params :
  extract_body_loop params body_params other_params
  = (body_params ++ filter is_body_param params,
     other_params ++ filter (λ p, ¬ is_body_param p) params).
Proof.
  revert body_params other_params.
  induction params as [|p params IH]; intros body_params other_params; simpl.
  - by rewrite !app_nil_r.
  - case_decide as Hp; rewrite IH.
    + rewrite (filter_cons_True is_body_param) by done.
      rewrite (filter_cons_False (λ p, ¬ is_body_param p)) by tauto.
      by rewrite <-(assoc_L (++)).
    + rewrite (filter_cons_False is_body_param) by done.
      rewrite (filter_cons_True (λ p, ¬ is_body_param p)) by done.
      by rewrite <-(assoc_L (++)).
Qed.

Lemma extract_query_loop_filter params query_params other_params :
  extract_query_loop params query_params other_params
  = (query_params ++ filter is_query_param params,
     other_params ++ filter (λ p, ¬ is_query_param p) params).
Proof.
  revert query_params other_params.
  induction params as [|p params IH]; intros query_params other_params; simpl.
  - by rewrite !app_nil_r.
  - case_decide as Hp; rewrite IH.
    + rewrite (filter_cons_True is_query_param) by done.
      rewrite (filter_cons_False (λ p, ¬ is_query_param p)) by tauto.
      by rewrite <-(assoc_L (++)).
    + rewrite (filter_cons_False is_query_param) by done.
      rewrite (filter_cons_True (λ p, ¬ is_query_param p)) by done.
      by rewrite <-(assoc_L (++)).
Qed.

Lemma filter_split (P : FieldInfo → Prop) `{!∀ p, Decision (P p)} params :
  filter P params ++ filter (λ p, ¬ P p) params ≡ₚ params
  ∧ filter P params `sublist_of` params
  ∧ filter (λ p, ¬ P p) params `sublist_of` params
  ∧ Forall P (filter P params)
  ∧ Forall (λ p, ¬ P p) (filter (λ p, ¬ P p) params).
Proof.
  split_and!.
  - apply filter_app_complement.
  - apply sublist_filter.
  - apply sublist_filter.
  - apply Forall_forall. by intros p [? _]%list_elem_of_filter.
  - apply Forall_forall. by intros p [? _]%list_elem_of_filter.
Qed.

Lemma extract_body_parameters_split_aux params :
  (extract_body_parameters params).1 ++ (extract_body_parameters params).2 ≡ₚ params
  ∧ Forall is_body_param (extract_body_parameters params).1
  ∧ Forall (λ p, ¬ is_body_param p) (extract_body_parameters params).2.
Proof.
  unfold extract_body_parameters. rewrite extract_body_loop_filter. simpl.
  destruct (filter_split is_body_param params) as (? & _ & _ & ? & ?). done.
Qed.

Lemma extract_query_parameters_split_aux params :
  (extract_query_parameters params).1 ++ (extract_query_parameters params).2 ≡ₚ params
  ∧ Forall is_query_param (extract_query_parameters params).1
  ∧ Forall (λ p, ¬ is_query_param p) (extract_query_parameters params).2.
Proof.
  unfold extract_query_parameters. rewrite extract_query_loop_filter. simpl.
  destruct (filter_split is_query_param params) as (? & _ & _ & ? & ?). done.
Qed.

(** X2.  [extract_body_parameters] splits the parameters: the body group has
    exactly those with a [Body] or [BodyField] tag, the other group the rest,
    each in the order of the list, and together they are the list. *)
Theorem extract_body_parameters_split :
  ∀ params,
    let body_params := (extract_body_parameters params).1 in
    let other_params := (extract_body_parameters params).2 in
    body_params ++ other_params ≡ₚ params
    ∧ body_params `sublist_of` params
    ∧ other_params `sublist_of` params
    ∧ Forall is_body_param body_params
    ∧ Forall (λ p, ¬ is_body_param p) other_params.
Proof.
  intros params. unfold extract_body_parameters.
  rewrite extract_body_loop_filter. simpl. apply filter_split.
Qed.

(** X3.  [extract_query_parameters] splits the parameters in the same way,
    by the [Query] tag. *)
Theorem extract_query_parameters_split :
  ∀ params,
    let query_params := (extract_query_parameters params).1 in
    let other_params := (extract_query_parameters params).2 in
    query_params ++ other_params ≡ₚ params
    ∧ query_params `sublist_of` params
    ∧ other_params `sublist_of` params
    ∧ Forall is_query_param query_params
    ∧ Forall (λ p, ¬ is_query_param p) other_params.
Proof.
  intros params. unfold extract_query_parameters.
  rewrite extract_query_loop_filter. simpl. apply filter_split.
Qed.

(** ** Path, body and query groups together *)

(** X4.  After path reconciliation, splitting the other group by body tags
    and what is left by the query tag puts every parameter in exactly one of
    four groups: a parameter given to a placeholder is in no other group,
    whatever its tags. *)
Theorem parameters_classified_once :
  ∀ params url st,
    extract_path_parameters params url = Ok st →
    let body_params := (extract_body_parameters (other_params st)).1 in
    let rest := (extract_body_parameters (other_params st)).2 in
    let query_params := (extract_query_parameters rest).1 in
    let others := (extract_query_parameters rest).2 in
    path_params st ++ body_params ++ query_params ++ others ≡ₚ params
    ∧ (NoDup params →
       NoDup (path_params st ++ body_params ++ query_params ++ others))
    ∧ Forall is_body_param body_params
    ∧ Forall (λ p, is_query_param p ∧ ¬ is_body_param p) query_params
    ∧ Forall (λ p, ¬ is_body_param p ∧ ¬ is_query_param p) others.
Proof.
  intros params url st [Hperm _]%extract_loop_partition. simpl in Hperm.
  intros body_params rest query_params others.
  destruct (extract_body_parameters_split_aux (other_params st))
    as (Hb & Hbody & Hrest).
  destruct (extract_query_parameters_split_aux rest) as (Hq & Hquery & Hothers).
  fold body_params rest in Hb, Hbody, Hrest.
  fold query_params others in Hq, Hquery, Hothers.
  assert (path_params st ++ body_params ++ query_params ++ others ≡ₚ params)
    as Hall by (by rewrite Hq, Hb).
  split; [done|]. split; [intros Hnd; by rewrite Hall|]. split; [done|].
  assert (Forall (λ p, ¬ is_body_param p) (query_params ++ others)) as Hnb
    by (by rewrite Hq).
  apply Forall_app in Hnb as [Hnb1 Hnb2]. split.
  - rewrite Forall_forall in Hquery, Hnb1 |- *. intros p Hp. split; auto.
  - rewrite Forall_forall in Hothers, Hnb2 |- *. intros p Hp. split; auto.
Qed.

(** A path parameter that also carries a [Query] tag, a body parameter, a
    query parameter and an untagged one. *)
Lemma parameters_classified_once_example :
  let pool :=
    {| name := "resource_pool";
       metadata :=
         {[ "PathVariable" :=
              Some {| elements := {[ "value" := {| string_value := "resource-pool" |} ]} |};
            "Query" := None ]} |} in
  let params := [ more_examples.tagged "spec" ["Body"]; pool;
                  more_examples.tagged "filter" ["Query"];
                  more_examples.tagged "x" [] ] in
  ∃ st, extract_path_parameters params "/vcenter/resource-pool/{resource-pool}" = Ok st
        ∧ path_params st
          ++ (extract_body_parameters (other_params st)).1
          ++ (extract_query_parameters (extract_body_parameters (other_params st)).2).1
          ++ (extract_query_parameters (extract_body_parameters (other_params st)).2).2
          ≡ₚ params
        ∧ name <$> path_params st = ["resource_pool"]
        ∧ name <$> (extract_query_parameters
                      (extract_body_parameters (other_params st)).2).1 = ["filter"].
Proof.
  intros pool params.
  assert (extract_path_parameters params "/vcenter/resource-pool/{resource-pool}"
          = Ok {| path_params := [pool];
                  other_params := [ more_examples.tagged "spec" ["Body"];
                                    more_examples.tagged "filter" ["Query"];
                                    more_examples.tagged "x" [] ];
                  new_url := "/vcenter/resource-pool/{resource_pool}";
                  stderr := [] |}) as Hrun by (vm_compute; reflexivity).
  eexists. split; [exact Hrun|].
  split; [exact (proj1 (parameters_classified_once _ _ _ Hrun))|].
  split; vm_compute; reflexivity.
Defined.

(** ** The order of the path group *)

Lemma extract_loop_trace url st pending st' :
  extract_loop url st pending = Ok st' →
  ∃ trace : Trace,
    trace.*1 = pending
    ∧ path_params st' = path_params st ++ taken trace
    ∧ stderr st' = stderr st ++ reported url trace
    ∧ Forall (accounted (other_params st')) trace.
Proof.
  revert st. induction pending as [|t pending IH]; intros st; simpl.
  - intros [= ->]. exists []. by rewrite !app_nil_r.
  - destruct (extract_step url st t) as [st1|] eqn:E; simpl; [|done].
    intros Hrest. pose proof (extract_loop_partition _ _ _ _ Hrest) as [_ Hsub].
    apply IH in Hrest as (trace & Hfst & Hp & He & Hall).
    apply extract_step_inv in E
      as [(before & p & after & _ & _ & Hmatch & ->)|(Hno & ->)];
      simpl in Hp, He, Hsub.
    + exists ((t, Some p) :: trace). split_and!.
      * by rewrite fmap_cons, Hfst.
      * by rewrite Hp, <-(assoc_L (++)).
      * done.
      * by constructor.
    + exists ((t, None) :: trace). split_and!.
      * by rewrite fmap_cons, Hfst.
      * done.
      * by rewrite He, <-(assoc_L (++)).
      * constructor; [|done]. unfold accounted. simpl.
        rewrite Forall_forall in Hno |- *. intros q Hq. apply Hno.
        by apply (sublist_subseteq _ _ Hsub).
Qed.

(** X5.  The path group follows the URL.  Every placeholder of the URL, in
    order, either took a parameter that matches it or was reported: the path
    group is the list of the parameters taken, in the order of their
    placeholders; the messages written are those of the other placeholders,
    in order, and none of the parameters left in the other group matches
    such a placeholder.  The two groups together have as many parameters as
    the list that was given. *)
Theorem path_params_follow_url :
  ∀ params url st,
    extract_path_parameters params url = Ok st →
    ∃ trace : Trace,
      trace.*1 = re_path_param.finditer url
      ∧ path_params st = taken trace
      ∧ stderr st = reported url trace
      ∧ Forall (accounted (other_params st)) trace
      ∧ length (path_params st) + length (other_params st) = length params.
Proof.
  intros params url st Hrun.
  destruct (extract_loop_trace _ _ _ _ Hrun) as (trace & Hfst & Hp & He & Hall).
  simpl in Hp, He. exists trace. split_and!; [done..|].
  apply extract_loop_partition in Hrun as [Hperm _]. simpl in Hperm.
  by rewrite <-Hperm, length_app.
Qed.

(** The placeholder [{resource-pool}] takes the parameter [resource_pool];
    [{id}] finds none and is reported. *)
Lemma path_params_follow_url_example :
  let url := "/vcenter/resource-pool/{resource-pool}/{id}" in
  ∃ trace : Trace,
    trace.*1 = ["resource-pool"; "id"]
    ∧ taken trace = [path_examples.resource_pool]
    ∧ reported url trace = [not_found_message "id" url]
    ∧ Forall (accounted [path_examples.untagged "filter"]) trace.
Proof.
  intros url.
  destruct (path_params_follow_url
              [path_examples.untagged "filter"; path_examples.resource_pool]
              url
              {| path_params := [path_examples.resource_pool];
                 other_params := [path_examples.untagged "filter"];
                 new_url := "/vcenter/resource-pool/{resource_pool}/{id}";
                 stderr := [not_found_message "id" url] |})
    as (trace & Hfst & Hp & He & Hall & _).
  - vm_compute. reflexivity.
  - exists trace. split_and!; [exact Hfst|by rewrite <-Hp|by rewrite <-He|exact Hall].
Defined.

(** ** The placeholders of the returned URL, one by one *)

Lemma extract_step_positions url st t st' (original : list string) :
  extract_step url st t = Ok st' → plain t →
  Forall (λ p, plain (name p)) (other_params st) →
  Forall plain (re_path_param.finditer (new_url st)) →
  Forall2 (λ old new, new = old ∨ ∃ p, p ∈ path_params st ∧ name p = new)
    original (re_path_param.finditer (new_url st)) →
  Forall (λ p, plain (name p)) (other_params st')
  ∧ Forall plain (re_path_param.finditer (new_url st'))
  ∧ Forall2 (λ old new, new = old ∨ ∃ p, p ∈ path_params st' ∧ name p = new)
      original (re_path_param.finditer (new_url st')).
Proof.
  intros Hstep Ht Hnames Hplain Hpos.
  pose proof (extract_step_partition _ _ _ _ Hstep) as [_ Hsub].
  split.
  { rewrite Forall_forall in Hnames |- *. intros q Hq.
    by apply Hnames, (sublist_subseteq _ _ Hsub). }
  apply extract_step_inv in Hstep
    as [(before & p & after & Ho & _ & _ & ->)|(_ & ->)]; simpl in *; [|done].
  assert (plain (name p)) as Hp.
  { rewrite Forall_forall in Hnames. apply Hnames. rewrite Ho.
    apply elem_of_app. right. left. }
  rewrite finditer_rewritten by done. split; [by apply plain_fmap_rename|].
  apply Forall2_fmap_r. eapply Forall2_impl; [done|]. intros old new Hnew. simpl.
  unfold rename. case_decide as E.
  - right. exists p. split; [|done]. apply elem_of_app. right. left.
  - destruct Hnew as [->|(q & Hq & Hqn)]; [by left|]. right. exists q.
    split; [|done]. apply elem_of_app. by left.
Qed.

Lemma extract_loop_positions url st pending st' (original : list string) :
  extract_loop url st pending = Ok st' → Forall plain pending →
  Forall (λ p, plain (name p)) (other_params st) →
  Forall plain (re_path_param.finditer (new_url st)) →
  Forall2 (λ old new, new = old ∨ ∃ p, p ∈ path_params st ∧ name p = new)
    original (re_path_param.finditer (new_url st)) →
  Forall plain (re_path_param.finditer (new_url st'))
  ∧ Forall2 (λ old new, new = old ∨ ∃ p, p ∈ path_params st' ∧ name p = new)
      original (re_path_param.finditer (new_url st')).
Proof.
  revert st. induction pending as [|t pending IH]; intros st; simpl.
  - by intros [= ->].
  - destruct (extract_step url st t) as [st1|] eqn:E; simpl; [|done].
    intros Hloop [Ht Hpending]%Forall_cons Hnames Hplain Hpos.
    destruct (extract_step_positions _ _ _ _ original E) as (? & ? & ?); [done..|].
    by apply (IH st1).
Qed.

(** X6.  Rewriting changes the text of placeholders only.  With plain
    placeholders and plain parameter names, the returned URL has as many
    placeholders as the given one, and each of them is the one at the same
    position in the given URL or the name of a parameter of the path
    group. *)
Theorem reconciliation_renames_in_place :
  ∀ params url st,
    extract_path_parameters params url = Ok st →
    Forall plain (re_path_param.finditer url) →
    Forall (λ p, plain (name p)) params →
    length (re_path_param.finditer (new_url st)) = length (re_path_param.finditer url)
    ∧ Forall plain (re_path_param.finditer (new_url st))
    ∧ Forall2 (λ old new, new = old ∨ ∃ p, p ∈ path_params st ∧ name p = new)
        (re_path_param.finditer url) (re_path_param.finditer (new_url st)).
Proof.
  intros params url st Hrun Hplain Hnames.
  apply (extract_loop_positions _ _ _ _ (re_path_param.finditer url)) in Hrun
    as [Hp Hpos]; simpl; try done.
  - split; [symmetry; by eapply Forall2_length|done].
  - apply Forall2_same_length_lookup_2; [done|]. intros i x y Hx Hy. left. congruence.
Qed.

Lemma reconciliation_renames_in_place_example :
  length (re_path_param.finditer "/vcenter/resource-pool/{resource_pool}/{id}")
  = length (re_path_param.finditer "/vcenter/resource-pool/{resource-pool}/{id}").
Proof.
  refine (proj1 (reconciliation_renames_in_place
    [path_examples.untagged "filter"; path_examples.resource_pool]
    "/vcenter/resource-pool/{resource-pool}/{id}"
    {| path_params := [path_examples.resource_pool];
       other_params := [path_examples.untagged "filter"];
       new_url := "/vcenter/resource-pool/{resource_pool}/{id}";
       stderr := [not_found_message "id"
                    "/vcenter/resource-pool/{resource-pool}/{id}"] |} _ _ _)).
  - vm_compute. reflexivity.
  - compute_done.
  - repeat constructor; compute_done.
Defined.

(** ** Edge cases and exceptions of path reconciliation *)

Lemma finditer_no_brace url :
  PyStr.has_char "{" url = false → re_path_param.finditer url = [].
Proof.
  intros Hurl. rewrite <-(str_app_nil_r url). by rewrite finditer_skip.
Qed.

Lemma extract_loop_no_params url st pending :
  other_params st = [] →
  extract_loop url st pending
  = Ok {| path_params := path_params st;
          other_params := [];
          new_url := new_url st;
          stderr := stderr st ++ ((λ t, not_found_message t url) <$> pending) |}.
Proof.
  revert st. induction pending as [|t pending IH]; intros st Ho; simpl.
  - rewrite app_nil_r, <-Ho. by destruct st.
  - rewrite extract_step_no_match by (rewrite Ho; constructor). simpl.
    rewrite IH by done. simpl. by rewrite <-(assoc_L (++)).
Qed.

(** X7.  A URL without an opening brace comes back as it is, with every
    parameter in the other group and nothing reported.  Without parameters
    the URL also comes back as it is, and every placeholder is reported, in
    the order of the URL. *)
Theorem extract_path_parameters_edge_cases :
  ∀ params url,
    (PyStr.has_char "{" url = false →
     extract_path_parameters params url
     = Ok {| path_params := []; other_params := params;
             new_url := url; stderr := [] |})
    ∧ extract_path_parameters [] url
      = Ok {| path_params := []; other_params := [];
              new_url := url;
              stderr := (λ t, not_found_message t url)
                          <$> re_path_param.finditer url |}.
Proof.
  intros params url. split.
  - intros Hurl. unfold extract_path_parameters. by rewrite finditer_no_brace.
  - unfold extract_path_parameters. by rewrite extract_loop_no_params.
Qed.

Lemma is_param_path_variable_raises param placeholder e :
  is_param_path_variable param placeholder = Raise e →
  (e = KeyError ∨ e = AttributeError) ∧ ¬ well_tagged param.
Proof.
  unfold is_param_path_variable, well_tagged, path_variable_value.
  case_decide; [done|].
  destruct (metadata param !! "PathVariable") as [[m|]|] eqn:Hm; [| |done].
  - destruct (elements m !! "value") as [v|] eqn:Hv; [done|]. intros [= <-].
    split; [by left|]. intros [?|(value & m' & v & ? & ? & _)]; congruence.
  - intros [= <-]. split; [by right|].
    intros [?|(value & m' & v & ? & ? & _)]; congruence.
Qed.

Lemma find_path_param_raises params placeholder url e :
  find_path_param params placeholder url = Raise e →
  (e = KeyError ∨ e = AttributeError) ∧ ¬ Forall well_tagged params.
Proof.
  induction params as [|p params IH]; simpl; [done|].
  destruct (is_param_path_variable p placeholder) as [[]|e'] eqn:E; simpl.
  - done.
  - intros [? Hno]%IH. split; [done|]. by intros [_ ?]%Forall_cons.
  - intros [= <-]. apply is_param_path_variable_raises in E as [? Hno].
    split; [done|]. by intros [? _]%Forall_cons.
Qed.

Lemma extract_step_raises url st placeholder e :
  extract_step url st placeholder = Raise e →
  (e = KeyError ∨ e = AttributeError) ∧ ¬ Forall well_tagged (other_params st).
Proof.
  unfold extract_step.
  destruct (find_path_param _ _ _) as [[[p|] url']|e'] eqn:E; simpl.
  - apply find_path_param_Some in E as (before & after & Ho & Hb & Hp & _).
    rewrite Ho, list_remove_middle by eauto using differs_not_elem. done.
  - done.
  - intros [= <-]. by apply find_path_param_raises in E.
Qed.

Lemma extract_loop_raises url st pending e :
  extract_loop url st pending = Raise e →
  (e = KeyError ∨ e = AttributeError) ∧ ¬ Forall well_tagged (other_params st).
Proof.
  revert st. induction pending as [|t pending IH]; intros st; simpl; [done|].
  destruct (extract_step url st t) as [st1|e'] eqn:E; simpl.
  - intros [? Hno]%IH. split; [done|]. intros Hall. apply Hno.
    apply extract_step_partition in E as [_ Hsub].
    rewrite Forall_forall in Hall |- *. intros p Hp.
    by apply Hall, (sublist_subseteq _ _ Hsub).
  - intros [= <-]. by apply extract_step_raises in E.
Qed.

(** X8.  Path reconciliation returns whenever every [PathVariable] tag of the
    parameters carries a [value] element.  When it raises, the exception is
    the [KeyError] of a missing [value] element or the [AttributeError] of a
    [PathVariable] tag that is [None]; a first parameter with another name
    and a [PathVariable] tag without [value] makes the first placeholder
    raise [KeyError]. *)
Theorem extract_path_parameters_exceptions :
  ∀ params url,
    (Forall well_tagged params → ∃ st, extract_path_parameters params url = Ok st)
    ∧ (∀ e, extract_path_parameters params url = Raise e →
            (e = KeyError ∨ e = AttributeError) ∧ ¬ Forall well_tagged params)
    ∧ (∀ t rest p others m,
         re_path_param.finditer url = t :: rest → params = p :: others →
         name p ≠ t → metadata p !! "PathVariable" = Some (Some m) →
         elements m !! "value" = None →
         extract_path_parameters params url = Raise KeyError).
Proof.
  intros params url. split; [apply extract_path_parameters_total|].
  split; [intros e He; by apply extract_loop_raises in He|].
  intros t rest p others m Hf -> Hn Hm Hv.
  unfold extract_path_parameters. rewrite Hf. simpl.
  unfold extract_step. simpl. unfold is_param_path_variable.
  by rewrite decide_False, Hm, Hv.
Qed.

(** ** Brace stripping *)

Section without_char.
Implicit Types (s t : string) (c d : ascii).

Lemma replace_char_empty c s : PyStr.replace s (String c "") "" = without_char c s.
Proof.
  induction s as [|d s IH]; [done|]. simpl without_char. case_decide as Hd.
  - subst d. rewrite <-(str_app_char c s), replace_occurrence. by rewrite str_app_nil_l.
  - rewrite replace_keep, IH; [done|].
    rewrite startswith_cons. by rewrite decide_False by congruence.
Qed.

Lemma without_char_absent c s : PyStr.has_char c s = false → without_char c s = s.
Proof.
  induction s as [|d s IH]; [done|]. intros [Hc Hs]%has_char_cons_false.
  simpl. rewrite decide_False by congruence. by rewrite IH.
Qed.

Lemma has_char_without_char c d s :
  PyStr.has_char c (without_char d s)
  = if decide (c = d) then false else PyStr.has_char c s.
Proof.
  induction s as [|e s IH]; [by case_decide|]. simpl without_char.
  destruct (decide (e = d)) as [->|He].
  - rewrite IH, has_char_cons. repeat case_decide; congruence.
  - rewrite !has_char_cons, IH. repeat case_decide; congruence.
Qed.

Lemma without_char_app c s t :
  without_char c (s +:+ t) = without_char c s +:+ without_char c t.
Proof.
  induction s as [|d s IH]; [done|]. rewrite str_app_cons. simpl.
  case_decide; [done|]. by rewrite str_app_cons, IH.
Qed.

Lemma without_char_length c s :
  (String.length (without_char c s) ≤ String.length s)%nat.
Proof. induction s as [|d s IH]; [done|]. simpl. case_decide; simpl; lia. Qed.

Lemma remove_curly_braces_without s :
  remove_curly_braces s = without_char "}" (without_char "{" s).
Proof.
  unfold remove_curly_braces.
  assert ((if PyStr.has_char "{" s then PyStr.replace s "{" "" else s)
          = without_char "{" s) as ->.
  { destruct (PyStr.has_char "{" s) eqn:E; [apply replace_char_empty|].
    symmetry. by apply without_char_absent. }
  destruct (PyStr.has_char "}" (without_char "{" s)) eqn:E;
    [apply replace_char_empty|]. symmetry. by apply without_char_absent.
Qed.

End without_char.

(** X9.  [remove_curly_braces] deletes the braces and nothing else: the
    result has no brace, keeps every other character, is the argument itself
    when that has no brace, and the function works piece by piece, so
    applying it again changes nothing. *)
Theorem remove_curly_braces_only_braces :
  ∀ s t c,
    PyStr.has_char "{" (remove_curly_braces s) = false
    ∧ PyStr.has_char "}" (remove_curly_braces s) = false
    ∧ (c ≠ "{"%char → c ≠ "}"%char →
       PyStr.has_char c (remove_curly_braces s) = PyStr.has_char c s)
    ∧ (PyStr.has_char "{" s = false → PyStr.has_char "}" s = false →
       remove_curly_braces s = s)
    ∧ remove_curly_braces (s +:+ t) = remove_curly_braces s +:+ remove_curly_braces t
    ∧ remove_curly_braces (remove_curly_braces s) = remove_curly_braces s
    ∧ (String.length (remove_curly_braces s) ≤ String.length s)%nat.
Proof.
  intros s t c. rewrite !remove_curly_braces_without. split_and!.
  - by rewrite !has_char_without_char.
  - by rewrite !has_char_without_char.
  - intros H1 H2. rewrite !has_char_without_char. by rewrite !decide_False.
  - intros H1 H2. by rewrite (without_char_absent "{"), without_char_absent.
  - by rewrite !without_char_app.
  - rewrite (without_char_absent "{" (without_char _ _)), without_char_absent;
      [done|by rewrite !has_char_without_char..].
  - etrans; apply without_char_length.
Qed.

(** X10.  Stripping the braces of a URL template leaves no placeholder, and
    turns each plain placeholder into its text. *)
Theorem remove_curly_braces_placeholders :
  ∀ url lead t rest,
    re_path_param.finditer (remove_curly_braces url) = []
    ∧ (plain t →
       remove_curly_braces (lead +:+ braced t +:+ rest)
       = remove_curly_braces lead +:+ t +:+ remove_curly_braces rest).
Proof.
  intros url lead t rest. split.
  - apply finditer_no_brace. rewrite remove_curly_braces_without.
    by rewrite !has_char_without_char.
  - intros (_ & Ho & Hc & _). rewrite !remove_curly_braces_without.
    rewrite braced_app, <-(str_app_char "{"), <-(str_app_char "}").
    rewrite !without_char_app. simpl without_char.
    rewrite (without_char_absent "{" t), (without_char_absent "}" t) by done.
    by rewrite !str_app_nil_l.
Qed.

(** ** The entries of a path object *)

Lemma lookup_set_if_not_none_eq k v (d : gmap string json) :
  set_if_not_none k v d !! k = match present v with Some x => Some x | None => d !! k end.
Proof. destruct v; simpl; by rewrite ?lookup_insert_eq. Qed.

Lemma set_if_not_none_entries k0 v0 (d : gmap string json) :
  k0 ∈ BUILD_PATH_KEYS →
  (∀ k v, d !! k = Some v → v ≠ JNull ∧ k ∈ BUILD_PATH_KEYS) →
  ∀ k v, set_if_not_none k0 v0 d !! k = Some v → v ≠ JNull ∧ k ∈ BUILD_PATH_KEYS.
Proof.
  intros Hk0 Hd k v. destruct (decide (k0 = k)) as [<-|Hne].
  - rewrite lookup_set_if_not_none_eq.
    destruct v0; simpl; try (intros [= <-]; by split). apply Hd.
  - rewrite lookup_set_if_not_none_ne by done. apply Hd.
Qed.

(** X11.  [build_path] stores each argument that is not [None] under its key
    and leaves out the others: no entry of the path object is [None], and
    its keys are among the nine of the builder, so it never has a
    [requestBody] or a [security] entry. *)
Theorem build_path_entries :
  ∀ service_name method path documentation parameters operation_id responses
    consumes produces,
    let path_obj := build_path service_name method path documentation
                      parameters operation_id responses consumes produces in
    path_obj !! "method" = present method
    ∧ path_obj !! "path" = present path
    ∧ path_obj !! "summary" = present documentation
    ∧ path_obj !! "parameters" = present parameters
    ∧ path_obj !! "responses" = present responses
    ∧ path_obj !! "consumes" = present consumes
    ∧ path_obj !! "produces" = present produces
    ∧ path_obj !! "operationId" = present operation_id
    ∧ (∀ k v, path_obj !! k = Some v → v ≠ JNull ∧ k ∈ BUILD_PATH_KEYS)
    ∧ path_obj !! "requestBody" = None
    ∧ path_obj !! "security" = None.
Proof.
  intros service_name method path documentation parameters operation_id
    responses consumes produces path_obj.
  assert (∀ k v, path_obj !! k = Some v → v ≠ JNull ∧ k ∈ BUILD_PATH_KEYS) as Hall.
  { unfold path_obj, build_path.
    repeat (apply set_if_not_none_entries; [compute_done|]).
    intros k v. destruct (decide ("tags" = k)) as [<-|Hne].
    - rewrite lookup_insert_eq. intros [= <-]. split; [done|compute_done].
    - by rewrite lookup_insert_ne, lookup_empty. }
  assert (∀ k, k ∉ BUILD_PATH_KEYS → path_obj !! k = None) as Hnone.
  { intros k Hk. destruct (path_obj !! k) as [v|] eqn:E; [|done].
    by destruct (Hall k v E). }
  unfold path_obj, build_path.
  split_and!;
    try (rewrite ?lookup_set_if_not_none_ne by done;
         rewrite lookup_set_if_not_none_eq;
         match goal with
         | |- match present ?x with _ => _ end = _ =>
             destruct x; simpl; try done;
             rewrite ?lookup_set_if_not_none_ne by done;
             by rewrite lookup_insert_ne, lookup_empty
         end).
  - exact Hall.
  - apply Hnone. compute_done.
  - apply Hnone. compute_done.
Qed.

(** ** Basic authentication *)

Lemma is_str_true s v : is_str s v = true ↔ v = JStr s.
Proof.
  destruct v; simpl; try (split; [done|congruence]).
  case_decide; split; congruence.
Qed.

Lemma add_basic_auth_inv path_obj r :
  add_basic_auth path_obj = Ok r →
  (r = path_obj
   ∧ (path_obj !! "path" ≠ Some (JStr SESSION_PATH)
      ∨ path_obj !! "method" ≠ Some (JStr "post"))
   ∧ is_Some (path_obj !! "path"))
  ∨ (r = <["security" := BASIC_AUTH_SECURITY]> path_obj
     ∧ path_obj !! "path" = Some (JStr SESSION_PATH)
     ∧ path_obj !! "method" = Some (JStr "post")).
Proof.
  unfold add_basic_auth.
  destruct (path_obj !! "path") as [path|] eqn:Hp; [|done].
  destruct (is_str SESSION_PATH path) eqn:Es.
  - apply is_str_true in Es as ->.
    destruct (path_obj !! "method") as [method|] eqn:Hm; [|done].
    destruct (is_str "post" method) eqn:Em.
    + apply is_str_true in Em as ->. intros [= <-]. by right.
    + intros [= <-]. left. split; [done|]. split; [|by eexists]. right.
      intros [= ->]. by rewrite (proj2 (is_str_true _ _)) in Em.
  - intros [= <-]. left. split; [done|]. split; [|by eexists]. left.
    intros [= ->]. by rewrite (proj2 (is_str_true _ _)) in Es.
Qed.

Lemma add_basic_auth_session path_obj :
  path_obj !! "path" = Some (JStr SESSION_PATH) →
  path_obj !! "method" = Some (JStr "post") →
  add_basic_auth path_obj = Ok (<["security" := BASIC_AUTH_SECURITY]> path_obj).
Proof.
  intros Hp Hm. unfold add_basic_auth. rewrite Hp, Hm.
  by rewrite !(proj2 (is_str_true _ _)).
Qed.

Lemma add_basic_auth_other path_obj path :
  path_obj !! "path" = Some path → path ≠ JStr SESSION_PATH →
  add_basic_auth path_obj = Ok path_obj.
Proof.
  intros Hp Hne. unfold add_basic_auth. rewrite Hp.
  destruct (is_str SESSION_PATH path) eqn:E; [|done].
  by apply is_str_true in E.
Qed.

Lemma add_basic_auth_not_post path_obj method :
  path_obj !! "path" = Some (JStr SESSION_PATH) →
  path_obj !! "method" = Some method → method ≠ JStr "post" →
  add_basic_auth path_obj = Ok path_obj.
Proof.
  intros Hp Hm Hne. unfold add_basic_auth. rewrite Hp, Hm.
  rewrite (proj2 (is_str_true _ _)) by done.
  destruct (is_str "post" method) eqn:E; [|done].
  by apply is_str_true in E.
Qed.

(** X12.  [add_basic_auth] needs the ['path'] entry, and the ['method'] entry
    when the path is the session path; otherwise it raises [KeyError].  For
    a path other than the session path the method is not looked at.  When it
    returns, only the [security] entry can differ from the given object, and
    it is set exactly for a [post] to the session path; applying the
    function to its result changes nothing. *)
Theorem add_basic_auth_effect :
  ∀ path_obj : gmap string json,
    (path_obj !! "path" = None → add_basic_auth path_obj = Raise KeyError)
    ∧ (path_obj !! "path" = Some (JStr SESSION_PATH) →
       path_obj !! "method" = None → add_basic_auth path_obj = Raise KeyError)
    ∧ (∀ path, path_obj !! "path" = Some path → path ≠ JStr SESSION_PATH →
               add_basic_auth path_obj = Ok path_obj)
    ∧ (path_obj !! "path" = Some (JStr SESSION_PATH) →
       path_obj !! "method" = Some (JStr "post") →
       add_basic_auth path_obj
       = Ok (<["security" := BASIC_AUTH_SECURITY]> path_obj))
    ∧ (∀ r, add_basic_auth path_obj = Ok r →
            (∀ k, k ≠ "security" → r !! k = path_obj !! k)
            ∧ (r = path_obj ∨ r !! "security" = Some BASIC_AUTH_SECURITY)
            ∧ add_basic_auth r = Ok r)
    ∧ (∀ e, add_basic_auth path_obj = Raise e → e = KeyError).
Proof.
  intros path_obj. split_and!.
  - intros Hp. unfold add_basic_auth. by rewrite Hp.
  - intros Hp Hm. unfold add_basic_auth. rewrite Hp, Hm.
    by rewrite (proj2 (is_str_true _ _)).
  - apply add_basic_auth_other.
  - apply add_basic_auth_session.
  - intros r Hr. pose proof Hr as Hr'.
    apply add_basic_auth_inv in Hr as [(-> & _ & _)|(-> & Hp & Hm)].
    + split; [done|]. split; [by left|done].
    + split_and!.
      * intros k Hk. by rewrite lookup_insert_ne.
      * right. apply lookup_insert_eq.
      * rewrite add_basic_auth_session by (by rewrite lookup_insert_ne).
        by rewrite insert_insert_eq.
  - intros e. unfold add_basic_auth.
    destruct (path_obj !! "path") as [path|]; [|by intros [= <-]].
    destruct (is_str SESSION_PATH path); [|done].
    destruct (path_obj !! "method") as [method|]; [|by intros [= <-]].
    by destruct (is_str "post" method).
Qed.

(** X13.  On what [build_path] returns: a [post] to the session path gets the
    [security] entry; a path object built without a path raises [KeyError],
    and so does one built for the session path without a method. *)
Theorem add_basic_auth_after_build_path :
  ∀ service_name method path documentation parameters operation_id responses
    consumes produces,
    let built m p := build_path service_name m p documentation parameters
                       operation_id responses consumes produces in
    add_basic_auth (built (JStr "post") (JStr SESSION_PATH))
    = Ok (<["security" := BASIC_AUTH_SECURITY]>
            (built (JStr "post") (JStr SESSION_PATH)))
    ∧ add_basic_auth (built method JNull) = Raise KeyError
    ∧ add_basic_auth (built JNull (JStr SESSION_PATH)) = Raise KeyError
    ∧ (path ≠ JNull → path ≠ JStr SESSION_PATH →
       add_basic_auth (built method path) = Ok (built method path)).
Proof.
  intros service_name method path documentation parameters operation_id
    responses consumes produces built.
  assert (∀ m p, built m p !! "path" = present p) as Hpath.
  { intros m p. unfold built, build_path.
    rewrite !lookup_set_if_not_none_ne, lookup_set_if_not_none_eq by done.
    destruct p; simpl; try done.
    by rewrite !lookup_set_if_not_none_ne, lookup_insert_ne, lookup_empty. }
  assert (∀ m p, built m p !! "method" = present m) as Hmethod.
  { intros m p. unfold built, build_path.
    rewrite !lookup_set_if_not_none_ne, lookup_set_if_not_none_eq by done.
    by destruct m. }
  split_and!.
  - apply add_basic_auth_session; [by rewrite Hpath|by rewrite Hmethod].
  - unfold add_basic_auth. by rewrite Hpath.
  - unfold add_basic_auth. by rewrite Hpath, Hmethod.
  - intros Hnull Hne. apply (add_basic_auth_other _ path); [|done].
    rewrite Hpath. by destruct path.
Qed.

(** ** Request-body extraction, again and with basic authentication *)

Lemma create_req_body_hoist (path_obj : gmap string json) before entry after ref :
  path_obj !! "parameters" = Some (JList (before ++ entry :: after)) →
  Forall plain_entry before → request_body_entry ref entry →
  create_req_body_from_params_list path_obj
  = Ok (<["parameters" := JList (before ++ after)]>
          (<["requestBody" := JObj {["$ref" := JStr ref]}]> path_obj)).
Proof.
  intros H Hb He. unfold create_req_body_from_params_list.
  rewrite H, truthy_list_app, (first_request_body_found _ _ _ _ 0%nat Hb He).
  simpl. by rewrite delete_middle.
Qed.

Lemma create_req_body_nothing (path_obj : gmap string json) l :
  path_obj !! "parameters" = Some (JList l) → Forall plain_entry l →
  create_req_body_from_params_list path_obj = Ok path_obj.
Proof.
  intros H Hl. unfold create_req_body_from_params_list. rewrite H.
  destruct (truthy (JList l)); [|done]. by rewrite first_request_body_none.
Qed.

(** The function reads the ['parameters'] entry only, and writes that entry
    and ['requestBody']. *)
Lemma create_req_body_insert k v (path_obj : gmap string json) :
  k ≠ "parameters" → k ≠ "requestBody" →
  create_req_body_from_params_list (<[k := v]> path_obj)
  = (r ←! create_req_body_from_params_list path_obj; Ok (<[k := v]> r)).
Proof.
  intros Hp Hr. unfold create_req_body_from_params_list.
  rewrite lookup_insert_ne by done.
  destruct (path_obj !! "parameters") as [parameters|]; [|done].
  destruct (truthy parameters); [|done].
  destruct parameters as [| | | |l|]; try done.
  destruct (first_request_body l 0) as [[[index ref]|]|]; simpl; [|done..].
  f_equal. rewrite (insert_insert_ne _ "requestBody" k) by done.
  by rewrite (insert_insert_ne _ "parameters" k) by done.
Qed.

Lemma add_basic_auth_insert k v (path_obj : gmap string json) :
  k ≠ "path" → k ≠ "method" → k ≠ "security" →
  add_basic_auth (<[k := v]> path_obj)
  = (r ←! add_basic_auth path_obj; Ok (<[k := v]> r)).
Proof.
  intros Hp Hm Hs. unfold add_basic_auth. rewrite !lookup_insert_ne by done.
  destruct (path_obj !! "path") as [path|]; [|done].
  destruct (is_str SESSION_PATH path); [|done].
  destruct (path_obj !! "method") as [method|]; [|done].
  destruct (is_str "post" method); [|done]. simpl.
  by rewrite (insert_insert_ne _ "security" k) by done.
Qed.

Lemma create_req_body_inv (path_obj b : gmap string json) :
  create_req_body_from_params_list path_obj = Ok b →
  b = path_obj
  ∨ ∃ l ref,
      b = <["parameters" := JList l]>
            (<["requestBody" := JObj {["$ref" := JStr ref]}]> path_obj).
Proof.
  unfold create_req_body_from_params_list.
  destruct (path_obj !! "parameters") as [parameters|]; [|done].
  destruct (truthy parameters); [|intros [= <-]; by left].
  destruct parameters as [| | | |l|]; try done; [intros [= <-]; by left|].
  destruct (first_request_body l 0) as [[[index ref]|]|]; simpl; [| |done].
  - intros [= <-]. right. by eexists _, _.
  - intros [= <-]. by left.
Qed.

(** X14.  The two post-processing steps do not depend on their order: when
    each of them returns on a path object, request-body extraction after
    basic authentication gives the same path object as basic authentication
    after request-body extraction. *)
Theorem post_processing_commutes :
  ∀ (path_obj a b : gmap string json),
    add_basic_auth path_obj = Ok a →
    create_req_body_from_params_list path_obj = Ok b →
    ∃ c, create_req_body_from_params_list a = Ok c ∧ add_basic_auth b = Ok c.
Proof.
  intros path_obj a b Ha Hb.
  assert (add_basic_auth b = (r ←! add_basic_auth path_obj;
                              r' ←! create_req_body_from_params_list r; Ok r'))
    as Hadd.
  { pose proof Hb as Hb'. apply create_req_body_inv in Hb' as [->|(l & ref & ->)].
    - rewrite Ha. simpl.
      pose proof Ha as Ha'. apply add_basic_auth_inv in Ha' as [(-> & _)|(-> & _)].
      + by rewrite Hb.
      + by rewrite create_req_body_insert, Hb by done.
    - rewrite !add_basic_auth_insert by done. rewrite Ha. simpl.
      pose proof Ha as Ha'. apply add_basic_auth_inv in Ha' as [(-> & _)|(-> & _)].
      + by rewrite Hb.
      + rewrite create_req_body_insert, Hb by done. simpl. f_equal.
        rewrite (insert_insert_ne _ "security" "parameters") by done.
        by rewrite (insert_insert_ne _ "security" "requestBody") by done. }
  rewrite Hadd, Ha. simpl.
  pose proof Ha as Ha'. apply add_basic_auth_inv in Ha' as [(-> & _)|(-> & _)].
  - exists b. by rewrite Hb.
  - rewrite create_req_body_insert, Hb by done. simpl. by eexists.
Qed.

(** A [post] to the session path with a request body among its
    parameters. *)
Lemma post_processing_commutes_example :
  let body : json := JObj {[ "$ref" := JStr "#/components/requestBodies/Login" ]} in
  let path_obj : gmap string json :=
    <["parameters" := JList [body]]> more_examples.session in
  ∃ c, create_req_body_from_params_list
         (<["security" := BASIC_AUTH_SECURITY]> path_obj) = Ok c
       ∧ add_basic_auth
           (<["parameters" := JList []]> (<["requestBody" := body]> path_obj)) = Ok c.
Proof.
  intros body path_obj.
  apply (post_processing_commutes path_obj).
  - vm_compute. reflexivity.
  - vm_compute. reflexivity.
Defined.

(** X15.  Each call hoists one reference.  With two references to request
    bodies in the list, a second call removes the second one as well and
    puts it in the place of the first as [requestBody]; after that, or when
    there was one reference only, a further call changes nothing. *)
Theorem create_req_body_twice :
  ∀ (path_obj : gmap string json) before first between second after ref1 ref2,
    path_obj !! "parameters"
    = Some (JList (before ++ first :: between ++ second :: after)) →
    Forall plain_entry before → Forall plain_entry between →
    request_body_entry ref1 first → request_body_entry ref2 second →
    (once ←! create_req_body_from_params_list path_obj;
     create_req_body_from_params_list once)
    = Ok (<["parameters" := JList (before ++ between ++ after)]>
            (<["requestBody" := JObj {["$ref" := JStr ref2]}]> path_obj))
    ∧ (Forall plain_entry after →
       ∀ twice,
         (once ←! create_req_body_from_params_list path_obj;
          create_req_body_from_params_list once) = Ok twice →
         create_req_body_from_params_list twice = Ok twice).
Proof.
  intros path_obj before first between second after ref1 ref2 Hp Hb Hm H1 H2.
  assert ((once ←! create_req_body_from_params_list path_obj;
           create_req_body_from_params_list once)
          = Ok (<["parameters" := JList (before ++ between ++ after)]>
                  (<["requestBody" := JObj {["$ref" := JStr ref2]}]> path_obj)))
    as Htwice.
  { rewrite (create_req_body_hoist _ before first _ ref1) by done. simpl.
    rewrite (create_req_body_hoist _ (before ++ between) second after ref2).
    - f_equal. rewrite <-(assoc_L (++)). apply map_eq. intros k.
      rewrite !lookup_insert. by repeat case_decide.
    - rewrite lookup_insert_eq. by rewrite <-(assoc_L (++)).
    - by apply Forall_app.
    - done. }
  split; [done|]. intros Ha twice. rewrite Htwice. intros [= <-].
  apply (create_req_body_nothing _ (before ++ between ++ after)).
  - apply lookup_insert_eq.
  - by rewrite !Forall_app.
Qed.

Lemma create_req_body_twice_example :
  let body (n : string) : json :=
    JObj {[ "$ref" := JStr ("#/components/requestBodies/" +:+ n) ]} in
  let query : json := JObj {[ "name" := JStr "q"; "in" := JStr "query" ]} in
  let path_obj : gmap string json :=
    {[ "parameters" := JList [query; body "A"; query; body "B"] ]} in
  (once ←! create_req_body_from_params_list path_obj;
   create_req_body_from_params_list once)
  = Ok (<["parameters" := JList [query; query]]>
          (<["requestBody" := body "B"]> path_obj)).
Proof.
  intros body query path_obj.
  refine (proj1 (create_req_body_twice path_obj [query] (body "A") [query]
                   (body "B") [] "#/components/requestBodies/A"
                   "#/components/requestBodies/B" _ _ _ _ _)).
  - done.
  - repeat constructor. eexists. split; [done|]. by left.
  - repeat constructor. eexists. split; [done|]. by left.
  - by eexists _, "A".
  - by eexists _, "B".
Defined.

(** ** The dynamic error map *)

(** What a structure declares is one of four things. *)
Lemma structure_cases (s : StructureInfo) :
  lacks_annotation s
  ∨ structure_metadata s !! "Response" = Some None
  ∨ (∃ n, has_code n s)
  ∨ has_malformed_code s.
Proof.
  unfold lacks_annotation, has_code, has_malformed_code, has_code_text.
  destruct (structure_metadata s !! "Response") as [[response|]|] eqn:Hr;
    [|by right; left|by left; left].
  destruct (elements response !! "code") as [v|] eqn:Hv; [|left; right; by eexists].
  destruct (PyInt.parse (string_value v)) as [n|] eqn:Hn.
  - right. right. left. exists n, (string_value v). split; [|done]. by eexists _, _.
  - right. right. right. exists (string_value v). split; [|done]. by eexists _, _.
Qed.

Lemma has_code_inj n n' s : has_code n s → has_code n' s → n = n'.
Proof.
  intros (text & (r & v & Hr & Hv & <-) & Hn) (text' & (r' & v' & Hr' & Hv' & <-) & Hn').
  congruence.
Qed.

Lemma has_code_not_lacking n s : has_code n s → ¬ lacks_annotation s.
Proof.
  intros (text & (r & v & Hr & Hv & _) & _) [H|(r' & H & H')]; congruence.
Qed.

Lemma has_code_not_null n s :
  has_code n s → structure_metadata s !! "Response" ≠ Some None.
Proof. intros (text & (r & v & Hr & Hv & _) & _). congruence. Qed.

Lemma scan_structure_null st structure s :
  structure_metadata s !! "Response" = Some None →
  scan_structure st (structure, s) = Ok st.
Proof.
  destruct st as [m out]. intros H. unfold scan_structure, read_error_code.
  by rewrite H.
Qed.

Lemma scan_structure_has_code st structure s n :
  has_code n s →
  scan_structure st (structure, s) = Ok (<[structure := n]> st.1, st.2).
Proof. intros (text & Ht & Hn). by apply (scan_structure_code _ _ _ text). Qed.

Lemma scan_structures_map st entries st' :
  NoDup entries.*1 →
  scan_structures st entries = Ok st' →
  ∀ k n, st'.1 !! k = Some n
         ↔ (∃ s, (k, s) ∈ entries ∧ has_code n s)
           ∨ ((∀ s n', (k, s) ∈ entries → ¬ has_code n' s) ∧ st.1 !! k = Some n).
Proof.
  revert st. induction entries as [|[k0 s0] entries IH]; intros st Hnd; simpl.
  - intros [= <-] k n. split; [intros H; right; split; [|done]|].
    + intros s n' Hin. by apply elem_of_nil in Hin.
    + intros [(s & Hin & _)|[_ H]]; [by apply elem_of_nil in Hin|done].
  - apply NoDup_cons in Hnd as [Hk0 Hnd].
    destruct (scan_structure st (k0, s0)) as [st1|] eqn:E; simpl; [|done].
    intros Hrest k n. rewrite (IH st1 Hnd Hrest k n). clear IH Hrest.
    assert (∀ s, (k0, s) ∈ entries → False) as Hfresh.
    { intros s Hin. apply Hk0. apply list_elem_of_fmap. by exists (k0, s). }
    assert (st1.1 = st.1 ∧ (∀ n', ¬ has_code n' s0)
            ∨ ∃ n0, has_code n0 s0 ∧ st1.1 = <[k0 := n0]> st.1) as [[Hsame Hno]|(n0 & Hn0 & Hins)].
    { destruct (structure_cases s0) as [Hl|[Hnull|[[n0 Hn0]|(text & Ht & Hbad)]]].
      - rewrite scan_structure_lacks in E by done. injection E as <-. left.
        split; [done|]. intros n' Hn'. by apply (has_code_not_lacking n' s0).
      - rewrite scan_structure_null in E by done. injection E as <-. left.
        split; [done|]. intros n' Hn'. by apply (has_code_not_null n' s0).
      - rewrite (scan_structure_has_code _ _ _ n0) in E by done.
        injection E as <-. right. by exists n0.
      - by rewrite (scan_structure_malformed _ _ _ text) in E. }
    + rewrite Hsame. split.
      * intros [(s & Hin & Hs)|[Hnone Hst]].
        -- left. exists s. split; [by right|done].
        -- right. split; [|done]. intros s n' [[= -> ->]|Hin]%elem_of_cons; eauto.
      * intros [(s & [[= -> ->]|Hin]%elem_of_cons & Hs)|[Hnone Hst]].
        -- by destruct (Hno n).
        -- left. by exists s.
        -- right. split; [|done]. intros s n' Hin. apply Hnone. by right.
    + rewrite Hins. split.
      * intros [(s & Hin & Hs)|[Hnone Hst]].
        -- left. exists s. split; [by right|done].
        -- destruct (decide (k0 = k)) as [->|Hne].
           ++ rewrite lookup_insert_eq in Hst. injection Hst as <-.
              left. exists s0. split; [by left|done].
           ++ rewrite lookup_insert_ne in Hst by done. right. split; [|done].
              intros s n' [[= -> ->]|Hin]%elem_of_cons; [done|eauto].
      * intros [(s & [[= -> ->]|Hin]%elem_of_cons & Hs)|[Hnone Hst]].
        -- right. split; [intros s n' Hin; by destruct (Hfresh s)|].
           rewrite lookup_insert_eq. f_equal. by apply (has_code_inj _ _ s0).
        -- left. by exists s.
        -- right. split; [intros s n' Hin; apply Hnone; by right|].
           destruct (decide (k0 = k)) as [->|Hne].
           ++ destruct (Hnone s0 n0); [by left|done].
           ++ by rewrite lookup_insert_ne.
Qed.

(** X16.  When the constructor returns, the dynamic map holds exactly the
    declared structures that carry an integer code, each with its code; the
    static table is the default one whatever was declared. *)
Theorem HttpErrorMap_dynamic_map :
  ∀ (svc : gmap string ComponentData) component package m,
    svc !! "com.vmware.vapi" = Some component →
    packages (info component) !! "com.vmware.vapi.std.errors" = Some package →
    NoDup (structures package).*1 →
    HttpErrorMap_init svc = Ok m →
    (∀ structure n,
       error_api_map m !! structure = Some n
       ↔ ∃ s, (structure, s) ∈ structures package ∧ has_code n s)
    ∧ error_rest_map m = default_error_rest_map
    ∧ component_svc m = svc.
Proof.
  intros svc component package m Hc Hp Hnd. unfold HttpErrorMap_init.
  rewrite Hc, Hp.
  destruct (scan_structures _ _) as [[api out]|] eqn:E; simpl; [|done].
  intros [= <-]. simpl. split; [|done]. intros structure n.
  rewrite (scan_structures_map _ _ _ Hnd E structure n). simpl.
  rewrite lookup_empty. naive_solver.
Qed.

Lemma HttpErrorMap_dynamic_map_example :
  let declared :=
    [ ("com.vmware.vapi.std.errors.not_found", error_examples.response "404");
      ("com.vmware.vapi.std.errors.error", error_examples.no_response);
      ("com.vmware.vapi.std.errors.unauthenticated", error_examples.response " +4_01 ") ] in
  ∃ m, HttpErrorMap_init (error_examples.with_structures declared) = Ok m
       ∧ error_api_map m !! "com.vmware.vapi.std.errors.unauthenticated" = Some 401%Z
       ∧ error_rest_map m = default_error_rest_map.
Proof.
  intros declared.
  assert (∃ m, HttpErrorMap_init (error_examples.with_structures declared) = Ok m)
    as [m E].
  { unfold HttpErrorMap_init.
    change (error_examples.with_structures ?l !! "com.vmware.vapi")
      with (Some (error_examples.component l)).
    cbv beta iota.
    change (packages (info (error_examples.component ?l)) !! "com.vmware.vapi.std.errors")
      with (Some (error_examples.package l)).
    cbv beta iota.
    replace (scan_structures (∅, []) (structures (error_examples.package declared)))
      with (Ok (<["com.vmware.vapi.std.errors.unauthenticated" := 401%Z]>
                  (<["com.vmware.vapi.std.errors.not_found" := 404%Z]>
                     (∅ : gmap string Z)),
                [missing_message "com.vmware.vapi.std.errors.error"]))
      by reflexivity.
    by eexists. }
  exists m. split; [done|].
  destruct (HttpErrorMap_dynamic_map (error_examples.with_structures declared)
              (error_examples.component declared) (error_examples.package declared)
              m eq_refl eq_refl) as (Hmap & Hrest & _).
  - compute_done.
  - exact E.
  - split; [|exact Hrest]. apply Hmap.
    exists (error_examples.response " +4_01 "). split.
    + do 2 apply list_elem_of_further. apply list_elem_of_here.
    + exists " +4_01 ". split; [by eexists _, _|reflexivity].
Defined.

Lemma scan_structure_raise_inv st structure s e :
  scan_structure st (structure, s) = Raise e → e = ValueError ∧ has_malformed_code s.
Proof.
  intros E. split; [by apply scan_structure_raises in E|].
  destruct (structure_cases s) as [Hl|[Hnull|[[n Hn]|Hbad]]]; [| | |done].
  - by rewrite scan_structure_lacks in E.
  - by rewrite scan_structure_null in E.
  - by rewrite (scan_structure_has_code _ _ _ n) in E.
Qed.

Lemma scan_structures_raise_inv st entries e :
  scan_structures st entries = Raise e →
  e = ValueError ∧ ∃ structure s, (structure, s) ∈ entries ∧ has_malformed_code s.
Proof.
  revert st. induction entries as [|[k0 s0] entries IH]; intros st; simpl; [done|].
  destruct (scan_structure st (k0, s0)) as [st1|e'] eqn:E; simpl.
  - intros (-> & structure & s & Hin & Hs)%IH. split; [done|].
    exists structure, s. split; [by right|done].
  - intros [= <-]. apply scan_structure_raise_inv in E as [-> Hs].
    split; [done|]. exists k0, s0. split; [by left|done].
Qed.

(** X17.  With the component [com.vmware.vapi] and its standard-errors
    package at hand, [ValueError] is the only exception that leaves the
    constructor: it is raised exactly when a declared structure carries a
    code that [int] refuses, and the constructor returns otherwise. *)
Theorem HttpErrorMap_exceptions :
  ∀ (svc : gmap string ComponentData) component package,
    svc !! "com.vmware.vapi" = Some component →
    packages (info component) !! "com.vmware.vapi.std.errors" = Some package →
    (∀ e, HttpErrorMap_init svc = Raise e →
          e = ValueError
          ∧ ∃ structure s,
              (structure, s) ∈ structures package ∧ has_malformed_code s)
    ∧ ((∃ structure s,
          (structure, s) ∈ structures package ∧ has_malformed_code s) →
       HttpErrorMap_init svc = Raise ValueError)
    ∧ ((∀ structure s,
          (structure, s) ∈ structures package → ¬ has_malformed_code s) →
       ∃ m, HttpErrorMap_init svc = Ok m).
Proof.
  intros svc component package Hc Hp. unfold HttpErrorMap_init. rewrite Hc, Hp.
  destruct (scan_structures _ _) as [[api out]|e'] eqn:E; simpl.
  - split_and!.
    + done.
    + intros (structure & s & Hin & text & Ht & Hbad).
      by rewrite (scan_structures_malformed _ _ structure s text) in E.
    + eauto.
  - apply scan_structures_raise_inv in E as (-> & structure & s & Hin & Hs).
    split_and!.
    + intros e [= <-]. eauto.
    + done.
    + intros Hno. by destruct (Hno structure s).
Qed.

(** The constructor raises for the structures [declared]; so one of them has
    a malformed code. *)
Lemma HttpErrorMap_exceptions_example :
  ∃ structure s,
    (structure, s) ∈ error_examples.declared ∧ has_malformed_code s.
Proof.
  apply (proj1 (HttpErrorMap_exceptions
                  (error_examples.with_structures error_examples.declared)
                  (error_examples.component error_examples.declared)
                  (error_examples.package error_examples.declared)
                  eq_refl eq_refl) ValueError).
  vm_compute. reflexivity.
Defined.

(** ** More on query-string augmentation *)

Lemma has_char_split c s :
  PyStr.has_char c s = true →
  ∃ a rest, s = a +:+ String c rest ∧ PyStr.has_char c a = false.
Proof.
  induction s as [|d s IH]; [done|]. rewrite has_char_cons.
  case_decide as Hc.
  - intros _. subst d. by exists "", s.
  - intros (a & rest & -> & Ha)%IH. exists (String d a), rest.
    split; [done|]. by apply has_char_cons_false.
Qed.

(** X18.  Whatever the URL, the result of [add_query_param] starts with the
    URL, has a question mark, and has the parameter after its first question
    mark. *)
Theorem add_query_param_result :
  ∀ url param,
    ∃ a rest suffix,
      add_query_param url param = a +:+ "?" +:+ rest
      ∧ PyStr.has_char "?" a = false
      ∧ occurs param rest
      ∧ add_query_param url param = url +:+ suffix.
Proof.
  intros url param. destruct (PyStr.has_char "?" url) eqn:Hq.
  - apply has_char_split in Hq as (a & rest & -> & Ha).
    destruct (query_string a rest Ha) as [Hfind Hslice].
    rewrite add_query_param_query by (rewrite Hfind; unfold PyStr.len; lia).
    rewrite Hfind, Hslice.
    destruct (Z.gtb_spec (PyStr.find rest param) (-1)) as [Hin|Hout].
    + exists a, rest, "". split_and!; [done..| |by rewrite str_app_nil_r].
      apply find_occurs. lia.
    + exists a, (rest +:+ "&" +:+ param), ("&" +:+ param). split_and!.
      * by rewrite <-(str_app_char "?" rest), !str_app_assoc.
      * done.
      * exists (rest +:+ "&"), "". by rewrite str_app_nil_r, str_app_assoc.
      * done.
  - rewrite add_query_param_no_query by (by apply find_char_none).
    exists url, param, ("?" +:+ param). split_and!; [done..| |done].
    exists "", "". by rewrite str_app_nil_r.
Qed.

(** X19.  A URL that ends with its only question mark gets [&param] behind
    it: the parameter is never put directly after the question mark. *)
Theorem add_query_param_trailing_question_mark :
  ∀ a param,
    PyStr.has_char "?" a = false → param ≠ "" →
    add_query_param (a +:+ "?") param = a +:+ "?&" +:+ param.
Proof.
  intros a param Ha Hparam.
  destruct (query_string a "" Ha) as [Hfind Hslice].
  rewrite add_query_param_query by (rewrite Hfind; unfold PyStr.len; lia).
  rewrite Hfind, Hslice.
  assert (PyStr.find "" param = (-1)%Z) as ->.
  { rewrite find_nil. by destruct param. }
  simpl. by rewrite str_app_assoc.
Qed.

Lemma add_query_param_trailing_question_mark_example :
  add_query_param "/x?" "b=2" = "/x?&b=2".
Proof. apply (add_query_param_trailing_question_mark "/x" "b=2"); done. Defined.

(** ** The type mapper and the case of letters *)

Lemma lower_char_lower_char c : PyStr.lower_char (PyStr.lower_char c) = PyStr.lower_char c.
Proof. by destruct c as [[] [] [] [] [] [] [] []]. Qed.

Lemma lower_lower s : PyStr.lower (PyStr.lower s) = PyStr.lower s.
Proof. induction s as [|c s IH]; [done|]. simpl. by rewrite lower_char_lower_char, IH. Qed.

(** X20.  Both functions of the type mapper look at the lower-case form of
    their argument only: two names that differ in the case of letters get
    the same answers.  The type that [metamodel_to_swagger_type_converter]
    returns is always in lower case. *)
Theorem type_mapper_ignores_case :
  ∀ s t,
    (same_ignoring_case s t →
     metamodel_to_swagger_type_converter s = metamodel_to_swagger_type_converter t
     ∧ is_type_builtin s = is_type_builtin t)
    ∧ same_ignoring_case (PyStr.lower s) s
    ∧ PyStr.lower (metamodel_to_swagger_type_converter s).1
      = (metamodel_to_swagger_type_converter s).1.
Proof.
  intros s t. split_and!.
  - unfold same_ignoring_case, metamodel_to_swagger_type_converter, is_type_builtin.
    by intros ->.
  - apply lower_lower.
  - unfold metamodel_to_swagger_type_converter.
    repeat case_decide; try done. apply lower_lower.
Qed.

Lemma type_mapper_ignores_case_example :
  metamodel_to_swagger_type_converter "Date_Time"
  = metamodel_to_swagger_type_converter "DATE_TIME"
  ∧ is_type_builtin "Date_Time" = is_type_builtin "DATE_TIME".
Proof. apply (proj1 (type_mapper_ignores_case "Date_Time" "DATE_TIME")). reflexivity. Defined.

(** ** Merging dictionaries of lists *)

Section combine_properties.
Variable list_of_set : list string → list string.
Implicit Types extended added : gmap string (list string).

Lemma combine_dicts_lookup extended added k :
  combine_dicts_with_list_values list_of_set extended added !! k
  = combined list_of_set (extended !! k) (added !! k).
Proof.
  unfold combine_dicts_with_list_values. revert k.
  apply (map_fold_weak_ind
           (λ r m, ∀ k, r !! k = combined list_of_set (extended !! k) (m !! k))).
  - intros k. by rewrite lookup_empty.
  - intros i v m r Hi IH k. unfold combine_entry.
    pose proof (IH i) as Hri. rewrite Hi in Hri. simpl in Hri. rewrite Hri.
    destruct (decide (i = k)) as [->|Hne].
    + rewrite lookup_insert_eq.
      destruct (extended !! k); by rewrite lookup_insert_eq.
    + rewrite (lookup_insert_ne m) by done. rewrite <-IH.
      destruct (extended !! i); by rewrite lookup_insert_ne.
Qed.

End combine_properties.

(** X21.  After [combine_dicts_with_list_values], a key of [added] alone
    holds the list of [added] as it is, repetitions included; a key of both
    dictionaries holds the elements of the two lists, each once; the other
    keys of [extended] are untouched; and there are no further keys. *)
Theorem combine_dicts_with_list_values_keys :
  ∀ (list_of_set : list string → list string) extended added k,
    (∀ l, NoDup (list_of_set l) ∧ ∀ x, x ∈ list_of_set l ↔ x ∈ l) →
    let result := combine_dicts_with_list_values list_of_set extended added in
    (added !! k = None → result !! k = extended !! k)
    ∧ (∀ v, added !! k = Some v → extended !! k = None → result !! k = Some v)
    ∧ (∀ v l, added !! k = Some v → extended !! k = Some l →
         ∃ merged, result !! k = Some merged ∧ NoDup merged
                   ∧ ∀ x, x ∈ merged ↔ x ∈ l ∨ x ∈ v)
    ∧ dom result = dom extended ∪ dom added.
Proof.
  intros list_of_set extended added k Hset result. split_and!.
  - intros Ha. unfold result. by rewrite combine_dicts_lookup, Ha.
  - intros v Ha He. unfold result. by rewrite combine_dicts_lookup, Ha, He.
  - intros v l Ha He. exists (list_of_set (l ++ v)). split.
    + unfold result. by rewrite combine_dicts_lookup, Ha, He.
    + destruct (Hset (l ++ v)) as [Hnd Hin]. split; [done|]. intros x.
      by rewrite Hin, elem_of_app.
  - apply set_eq. intros j. rewrite elem_of_union, !elem_of_dom.
    unfold result. rewrite combine_dicts_lookup.
    destruct (extended !! j), (added !! j); simpl;
      split; intros; eauto; try (by left; eauto); try (by right; eauto).
    + destruct H as [[? ?]|[? ?]]; done.
Qed.

Lemma combine_dicts_with_list_values_keys_example :
  combine_dicts_with_list_values remove_dups
    {[ "get" := ["vm"; "host"] ]} {[ "get" := ["host"; "vm"; "vm"]; "put" := ["vm"; "vm"] ]}
    !! "put" = Some ["vm"; "vm"]
  ∧ ∃ merged,
      combine_dicts_with_list_values remove_dups
        {[ "get" := ["vm"; "host"] ]} {[ "get" := ["host"; "vm"; "vm"]; "put" := ["vm"; "vm"] ]}
        !! "get" = Some merged
      ∧ NoDup merged ∧ ∀ x, x ∈ merged ↔ x ∈ ["vm"; "host"] ∨ x ∈ ["host"; "vm"; "vm"].
Proof.
  assert (∀ l : list string, NoDup (remove_dups l) ∧ ∀ x, x ∈ remove_dups l ↔ x ∈ l)
    as Hset by (intros l; split; [apply NoDup_remove_dups|intros x; apply elem_of_remove_dups]).
  split.
  - apply (proj1 (proj2 (combine_dicts_with_list_values_keys remove_dups
                           {[ "get" := ["vm"; "host"] ]}
                           {[ "get" := ["host"; "vm"; "vm"]; "put" := ["vm"; "vm"] ]}
                           "put" Hset))); reflexivity.
  - apply (proj1 (proj2 (proj2 (combine_dicts_with_list_values_keys remove_dups
                                  {[ "get" := ["vm"; "host"] ]}
                                  {[ "get" := ["host"; "vm"; "vm"]; "put" := ["vm"; "vm"] ]}
                                  "get" Hset)))); reflexivity.
Defined.

(** ** Camel case *)

Section camel_case.
Implicit Types (s w : string) (ws : list string) (c : ascii) (ds : list ascii).

Lemma upper_char_cases c :
  upper_char c = c ∨ is_alnum (upper_char c) = true.
Proof. destruct c as [[] [] [] [] [] [] [] []]; vm_compute; auto. Qed.

Lemma upper_char_upper_char c : upper_char (upper_char c) = upper_char c.
Proof. by destruct c as [[] [] [] [] [] [] [] []]. Qed.

Lemma join_empty_cons w ws : PyStr.join "" (w :: ws) = w +:+ PyStr.join "" ws.
Proof. destruct ws; simpl; [by rewrite str_app_nil_r|done]. Qed.

Lemma count_chars_app ds s t :
  count_chars ds (s +:+ t) = (count_chars ds s + count_chars ds t)%nat.
Proof.
  induction s as [|c s IH]; [done|]. rewrite str_app_cons. simpl. rewrite IH. lia.
Qed.

Lemma re_split_cons ds c s :
  re_split ds (String c s)
  = if decide (c ∈ ds) then "" :: re_split ds s
    else match re_split ds s with
         | w :: ws => String c w :: ws
         | [] => [String c ""]
         end.
Proof. reflexivity. Qed.

Lemma re_split_not_nil ds s : re_split ds s ≠ [].
Proof.
  induction s as [|c s IH]; [done|]. rewrite re_split_cons.
  case_decide; [done|]. by destruct (re_split ds s).
Qed.

Lemma re_split_words ds s : Forall (λ w, count_chars ds w = 0%nat) (re_split ds s).
Proof.
  induction s as [|c s IH]; [by repeat constructor|]. rewrite re_split_cons.
  case_decide as Hc; [by constructor|].
  pose proof (re_split_not_nil ds s) as Hne.
  destruct (re_split ds s) as [|w ws]; [done|].
  apply Forall_cons in IH as [Hw Hws]. constructor; [|done].
  simpl. by rewrite decide_False, Hw.
Qed.

Lemma re_split_one ds s : count_chars ds s = 0%nat → re_split ds s = [s].
Proof.
  induction s as [|c s IH]; [done|]. simpl count_chars. rewrite re_split_cons.
  case_decide; [done|]. intros Hs. by rewrite IH.
Qed.

Lemma re_split_length ds s :
  (String.length (PyStr.join "" (re_split ds s)) + count_chars ds s)%nat
  = String.length s.
Proof.
  induction s as [|c s IH]; [done|]. rewrite re_split_cons. simpl count_chars.
  pose proof (re_split_not_nil ds s) as Hne.
  case_decide.
  - rewrite join_empty_cons, str_app_nil_l. simpl. lia.
  - destruct (re_split ds s) as [|w ws]; [done|].
    rewrite join_empty_cons in IH |- *. rewrite str_app_cons. simpl. lia.
Qed.

Lemma re_split_single c s : re_split [c] s = PyStr.split c s.
Proof.
  induction s as [|d s IH]; [done|]. rewrite re_split_cons, split_cons, IH.
  destruct (decide (d = c)) as [->|Hne].
  - by rewrite decide_True by left.
  - rewrite decide_False; [done|]. by intros ->%list_elem_of_singleton.
Qed.

Lemma capitalize_first_length w :
  String.length (capitalize_first w) = String.length w.
Proof. by destruct w. Qed.

Lemma capitalize_first_count ds w :
  Forall (λ d, is_alnum d = false) ds →
  count_chars ds w = 0%nat → count_chars ds (capitalize_first w) = 0%nat.
Proof.
  intros Hds. destruct w as [|c w]; [done|]. simpl.
  destruct (decide (c ∈ ds)) as [|Hc]; [done|]. intros Hw.
  rewrite decide_False; [done|]. intros Hin.
  destruct (upper_char_cases c) as [E|E]; [by rewrite E in Hin|].
  rewrite Forall_forall in Hds. by rewrite (Hds _ Hin) in E.
Qed.

Lemma camel_words_count ds ws :
  Forall (λ d, is_alnum d = false) ds →
  Forall (λ w, count_chars ds w = 0%nat) ws →
  count_chars ds (PyStr.join "" (capitalize_first <$> ws)) = 0%nat.
Proof.
  intros Hds Hws. induction Hws as [|w ws Hw _ IH]; [done|].
  rewrite fmap_cons, join_empty_cons, count_chars_app, IH.
  by rewrite capitalize_first_count.
Qed.

Lemma camel_words_length ws :
  String.length (PyStr.join "" (capitalize_first <$> ws))
  = String.length (PyStr.join "" ws).
Proof.
  induction ws as [|w ws IH]; [done|].
  rewrite fmap_cons, !join_empty_cons, !str_length_app, IH.
  by rewrite capitalize_first_length.
Qed.

Lemma camel_words_capitalized ws :
  capitalize_first (PyStr.join "" (capitalize_first <$> ws))
  = PyStr.join "" (capitalize_first <$> ws).
Proof.
  induction ws as [|w ws IH]; [done|]. rewrite fmap_cons, join_empty_cons.
  destruct w as [|c w]; [by rewrite str_app_nil_l|].
  simpl capitalize_first at 2 3. rewrite str_app_cons. simpl.
  by rewrite upper_char_upper_char.
Qed.

Lemma isascii_app s t : isascii (s +:+ t) = isascii s && isascii t.
Proof.
  induction s as [|c s IH]; [done|]. rewrite str_app_cons. simpl.
  by rewrite IH, andb_assoc.
Qed.

Lemma upper_char_isascii c :
  (nat_of_ascii c <? 128)%nat = true → (nat_of_ascii (upper_char c) <? 128)%nat = true.
Proof. destruct c as [[] [] [] [] [] [] [] []]; vm_compute; auto. Qed.

Lemma capitalize_first_isascii w : isascii w = true → isascii (capitalize_first w) = true.
Proof.
  destruct w as [|c w]; [done|]. simpl.
  intros [Hc Hw]%andb_prop. by rewrite upper_char_isascii.
Qed.

Lemma re_split_isascii ds s :
  isascii s = true → Forall (λ w, isascii w = true) (re_split ds s).
Proof.
  induction s as [|c s IH]; [by repeat constructor|]. simpl isascii.
  intros [Hc Hs]%andb_prop. specialize (IH Hs). rewrite re_split_cons.
  case_decide; [by constructor|].
  pose proof (re_split_not_nil ds s) as Hne.
  destruct (re_split ds s) as [|w ws]; [done|].
  apply Forall_cons in IH as [Hw Hws]. constructor; [|done].
  simpl. by rewrite Hc, Hw.
Qed.

Lemma camel_words_isascii ws :
  Forall (λ w, isascii w = true) ws →
  isascii (PyStr.join "" (capitalize_first <$> ws)) = true.
Proof.
  induction 1 as [|w ws Hw _ IH]; [done|].
  rewrite fmap_cons, join_empty_cons, isascii_app, IH.
  by rewrite capitalize_first_isascii.
Qed.

Lemma delimiters_literal (delimiters : list delimiter) :
  Forall (λ d, is_alnum d = false) (delimiter_char <$> delimiters).
Proof.
  apply Forall_fmap, Forall_forall. intros [c Hc] _. simpl.
  by destruct (is_alnum c).
Qed.

End camel_case.

(** X22.  Without a delimiter the pattern is a lone backslash and [re]
    raises.  Otherwise, for an ASCII argument, [get_str_camel_case] returns
    an ASCII string without any of the delimiters in which only the
    delimiters are missing and first letters of words are capitals: its
    length is the length of the argument less the number of delimiters in
    it; an argument without a delimiter has only its first character
    changed; and the result is a fixed point.  For one delimiter, ASCII
    words joined by it come back capitalised and concatenated. *)
Theorem get_str_camel_case_result :
  ∀ string_ (delimiters : list delimiter),
    let ds := delimiter_char <$> delimiters in
    get_str_camel_case string_ [] = inl bad_escape_end_of_pattern
    ∧ (delimiters ≠ [] → isascii string_ = true →
       ∃ r, get_str_camel_case string_ delimiters = inr r
            ∧ isascii r = true
            ∧ count_chars ds r = 0%nat
            ∧ (String.length r + count_chars ds string_)%nat = String.length string_
            ∧ (count_chars ds string_ = 0%nat → r = capitalize_first string_)
            ∧ get_str_camel_case r delimiters = inr r)
    ∧ (∀ d words,
         delimiters = [d] → words ≠ [] →
         Forall (λ w, isascii w = true) words →
         Forall (λ w, PyStr.has_char (delimiter_char d) w = false) words →
         get_str_camel_case (PyStr.join (String (delimiter_char d) "") words) delimiters
         = inr (PyStr.join "" (capitalize_first <$> words))).
Proof.
  intros string_ delimiters ds. split; [done|]. split.
  - intros Hne Hascii.
    assert (∀ s, get_str_camel_case s delimiters
                 = inr (PyStr.join "" (capitalize_first <$> re_split ds s))) as Hget
      by (intros s; by destruct delimiters).
    eexists. split; [apply Hget|].
    assert (count_chars ds (PyStr.join "" (capitalize_first <$> re_split ds string_))
            = 0%nat) as Hcount
      by (apply camel_words_count; [apply delimiters_literal|apply re_split_words]).
    split_and!.
    + by apply camel_words_isascii, re_split_isascii.
    + done.
    + rewrite camel_words_length. apply re_split_length.
    + intros Hs. by rewrite re_split_one.
    + rewrite Hget, re_split_one by done. simpl. f_equal.
      apply camel_words_capitalized.
  - intros d words -> Hne _ Hwords. simpl.
    by rewrite re_split_single, split_join.
Qed.

Lemma get_str_camel_case_result_example :
  ∃ r, get_str_camel_case "com.vmware.vcenter_vm" CAMELCASE_SEPARATOR_LIST = inr r
       ∧ isascii r = true
       ∧ count_chars ["."; "_"]%char r = 0%nat
       ∧ get_str_camel_case r CAMELCASE_SEPARATOR_LIST = inr r.
Proof.
  destruct (proj1 (proj2 (get_str_camel_case_result "com.vmware.vcenter_vm"
                            CAMELCASE_SEPARATOR_LIST)))
    as (r & Hr & Hascii & Hcount & _ & _ & Hfix); [done|reflexivity|].
  by exists r.
Defined.

(** ** Reference renaming *)

Lemma endswith_spec s suffix : endswith s suffix = true ↔ ∃ p, s = p +:+ suffix.
Proof.
  induction s as [|c s IH]; simpl.
  - case_decide as E; [split; [|done]; intros _; exists ""; by rewrite <-E|].
    split; [done|]. intros [[|d p] Hp]; [by rewrite str_app_nil_l in Hp|].
    by rewrite str_app_cons in Hp.
  - case_decide as E; [split; [|done]; intros _; exists ""; by rewrite <-E|].
    rewrite IH. split.
    + intros [p ->]. by exists (String c p).
    + intros [[|d p] Hp]; [by rewrite str_app_nil_l in Hp|].
      rewrite str_app_cons in Hp. injection Hp as _ ->. by exists p.
Qed.

(** When the first occurrence of [old] is the one at the end, replacing
    changes the end only. *)
Lemma replace_only_suffix old_head old_tail new p :
  PyStr.find (p +:+ String old_head old_tail) (String old_head old_tail) = PyStr.len p →
  PyStr.replace (p +:+ String old_head old_tail) (String old_head old_tail) new
  = p +:+ new.
Proof.
  unfold PyStr.len. induction p as [|c p IH].
  - intros _. rewrite !str_app_nil_l.
    rewrite <-(str_app_nil_r (String old_head old_tail)) at 1.
    by rewrite replace_occurrence, replace_nil, str_app_nil_r.
  - rewrite !str_app_cons, find_cons.
    destruct (PyStr.startswith _ _) eqn:E; [simpl; lia|].
    destruct (Z.eqb_spec (PyStr.find (p +:+ String old_head old_tail)
                            (String old_head old_tail)) (-1)); [simpl; lia|].
    intros Hf. rewrite replace_keep by done. rewrite IH; [done|].
    simpl String.length in Hf. lia.
Qed.

Lemma recursive_ref_update_lookup d old updated k :
  recursive_ref_update d old updated !! k = ref_update_value old updated <$> d !! k.
Proof. apply lookup_fmap. Qed.

(** X23.  [recursive_ref_update] keeps the keys.  A string value that ends
    with [old], with no [old] before that, has this ending replaced by
    [updated]; a string value that does not end with [old] stays.  Nested
    dictionaries, and dictionaries that are elements of a list, are updated
    in the same way, whereas strings and lists that are elements of a list
    are left as they are. *)
Theorem recursive_ref_update_values :
  ∀ (d : gmap string json) old_head old_tail updated k,
    let old := String old_head old_tail in
    let result := recursive_ref_update d old updated in
    dom result = dom d
    ∧ (∀ p, d !! k = Some (JStr (p +:+ old)) →
            PyStr.find (p +:+ old) old = PyStr.len p →
            result !! k = Some (JStr (p +:+ updated)))
    ∧ (∀ s, d !! k = Some (JStr s) → (∀ p, s ≠ p +:+ old) →
            result !! k = Some (JStr s))
    ∧ (∀ inner, d !! k = Some (JObj inner) →
                result !! k = Some (JObj (recursive_ref_update inner old updated)))
    ∧ (∀ l, d !! k = Some (JList l) →
            ∃ l', result !! k = Some (JList l')
                  ∧ length l' = length l
                  ∧ ∀ i element, l !! i = Some element →
                      l' !! i = Some (match element with
                                      | JObj inner =>
                                          JObj (recursive_ref_update inner old updated)
                                      | _ => element
                                      end))
    ∧ (∀ v, d !! k = Some v → v = JNull ∨ (∃ b, v = JBool b) ∨ (∃ z, v = JInt z) →
            result !! k = Some v).
Proof.
  intros d old_head old_tail updated k old result. subst old result. split_and!.
  - apply dom_fmap_L.
  - intros p Hd Hf. rewrite recursive_ref_update_lookup, Hd. simpl.
    rewrite (proj2 (endswith_spec _ _)) by eauto.
    by rewrite <-replace_unfold, replace_only_suffix.
  - intros s Hd Hs. rewrite recursive_ref_update_lookup, Hd. simpl.
    destruct (endswith s (String old_head old_tail)) eqn:E; [|done].
    apply endswith_spec in E as [p ->]. by destruct (Hs p).
  - intros inner Hd. by rewrite recursive_ref_update_lookup, Hd.
  - intros l Hd. rewrite recursive_ref_update_lookup, Hd. simpl.
    eexists. split; [done|]. split; [by rewrite length_fmap|].
    intros i element Hi. rewrite list_lookup_fmap, Hi. simpl.
    by destruct element.
  - intros v Hd Hv. rewrite recursive_ref_update_lookup, Hd.
    by destruct Hv as [->|[[b ->]|[z ->]]].
Qed.

Lemma recursive_ref_update_values_example :
  recursive_ref_update
    {[ "$ref" := JStr "#/definitions/vcenter.VM_create";
       "items" := JList [JStr "vcenter.VM_create";
                         JObj {[ "$ref" := JStr "#/definitions/vcenter.VM_create" ]}] ]}
    "VM_create" "VmCreate" !! "$ref"
  = Some (JStr "#/definitions/vcenter.VmCreate").
Proof.
  apply (proj1 (proj2 (recursive_ref_update_values _ "V" "M_create" "VmCreate" "$ref"))
           "#/definitions/vcenter.").
  - reflexivity.
  - reflexivity.
Defined.

(** Every [old] in a value that ends with [old] is replaced, not the ending
    alone. *)
Remark recursive_ref_update_replaces_all :
  recursive_ref_update {[ "$ref" := JStr "#/definitions/Info/Info" ]} "Info" "Spec"
  = {[ "$ref" := JStr "#/definitions/Spec/Spec" ]}.
Proof. by vm_compute. Qed.
